(** * check_format.py: the format checker, embedded and verified

    The script reads a list of paths from standard input and, for each
    path, prints the path, reads the file as text, pipes the file through
    [sed | clang-format | sed], compares the two texts, prints a verdict
    and counts the mismatches; it ends with [sys.exit(status)].

    Layout of the development:
    - [Text]: Python [str] and [bytes], newline translation, [readlines],
      [strip], strict UTF-8 decoding;
    - [Sed]: the two [s/.../.../g] commands of the pipeline;
    - [Checker]: the interpreter state, a state-and-exception monad, the
      loop body and the main program;
    - the theorems, one group per property of the checker. *)

From Stdlib Require Import List Bool Arith NArith ZArith Lia Permutation.
From Stdlib Require Import Strings.String Strings.Byte.
From Equations Require Import Equations.
Import ListNotations.

(* ===================================================================== *)
(** ** Text: [str], [bytes] and the text layer of the interpreter *)
(* ===================================================================== *)

Module Text.

(** A Python [str] is a sequence of Unicode code points; a [bytes] object
    (and the content of a file, and what flows through a pipe) is a
    sequence of bytes. *)
Definition str := list N.
Definition bytes := list byte.

(** String literals of the script: all of them are ASCII, so the code
    point of each character is the value of its byte. *)
Definition lit (s : string) : str := map Byte.to_N (list_byte_of_string s).
Definition blit (s : string) : bytes := list_byte_of_string s.
Arguments lit : simpl never.
Arguments blit : simpl never.

Definition LF : N := 10.
Definition CR : N := 13.

(** [original == formatted] on two [str] values. *)
Fixpoint str_eqb (a b : str) : bool :=
  match a, b with
  | [], [] => true
  | x :: a', y :: b' => N.eqb x y && str_eqb a' b'
  | _, _ => false
  end.

(** Universal newlines, as the text layer applies them on input when a
    stream is opened with the default [newline=None]: ["\r\n"] and a lone
    ["\r"] both become ["\n"]. *)
Fixpoint universal_newlines (s : str) : str :=
  match s with
  | [] => []
  | c :: t =>
      if N.eqb c CR then
        LF :: match t with
              | d :: t' => if N.eqb d LF then universal_newlines t'
                           else universal_newlines t
              | [] => []
              end
      else c :: universal_newlines t
  end.

(** [f.readlines()] on a stream whose lines end at ["\n"]: the lines
    keep their terminating ["\n"]; a last line without one is kept when it
    is not empty. *)
Fixpoint readlines (s : str) : list str :=
  match s with
  | [] => []
  | c :: t =>
      if N.eqb c LF then [c] :: readlines t
      else match readlines t with
           | [] => [[c]]
           | l :: ls => (c :: l) :: ls
           end
  end.

(** [str.isspace] for one code point (CPython's [_PyUnicode_IsWhitespace]). *)
Definition isspace (c : N) : bool :=
  ((9 <=? c) && (c <=? 13) || (28 <=? c) && (c <=? 32)
   || (c =? 133) || (c =? 160) || (c =? 5760)
   || (8192 <=? c) && (c <=? 8202)
   || (c =? 8232) || (c =? 8233) || (c =? 8239) || (c =? 8287)
   || (c =? 12288))%N.

Fixpoint lstrip (s : str) : str :=
  match s with
  | [] => []
  | c :: t => if isspace c then lstrip t else s
  end.

Definition rstrip (s : str) : str := rev (lstrip (rev s)).

(** [name.strip()] *)
Definition strip (s : str) : str := lstrip (rstrip s).

(** *** Strict UTF-8 decoding: [bytes.decode('utf-8')]

    [None] stands for [UnicodeDecodeError].  Overlong forms, surrogates
    and code points above U+10FFFF are rejected, as CPython does. *)

Definition continuation (n : N) : option N :=
  if ((128 <=? n) && (n <? 192))%N then Some (n - 128)%N else None.

Fixpoint utf8_decode_N (bs : list N) : option str :=
  match bs with
  | [] => Some []
  | n0 :: r0 =>
      if (n0 <? 128)%N then option_map (cons n0) (utf8_decode_N r0)
      else if (n0 <? 194)%N then None
      else if (n0 <? 224)%N then
        match r0 with
        | n1 :: r1 =>
            match continuation n1 with
            | Some c1 =>
                option_map (cons ((n0 - 192) * 64 + c1)%N) (utf8_decode_N r1)
            | None => None
            end
        | _ => None
        end
      else if (n0 <? 240)%N then
        match r0 with
        | n1 :: n2 :: r2 =>
            match continuation n1, continuation n2 with
            | Some c1, Some c2 =>
                let cp := ((n0 - 224) * 4096 + c1 * 64 + c2)%N in
                if ((2048 <=? cp) && negb ((55296 <=? cp) && (cp <? 57344)))%N
                then option_map (cons cp) (utf8_decode_N r2)
                else None
            | _, _ => None
            end
        | _ => None
        end
      else if (n0 <? 245)%N then
        match r0 with
        | n1 :: n2 :: n3 :: r3 =>
            match continuation n1, continuation n2, continuation n3 with
            | Some c1, Some c2, Some c3 =>
                let cp := ((n0 - 240) * 262144 + c1 * 4096 + c2 * 64 + c3)%N in
                if ((65536 <=? cp) && (cp <=? 1114111))%N
                then option_map (cons cp) (utf8_decode_N r3)
                else None
            | _, _, _ => None
            end
        | _ => None
        end
      else None
  end.

Definition utf8_decode (bs : bytes) : option str :=
  utf8_decode_N (map Byte.to_N bs).

End Text.

(* ===================================================================== *)
(** ** Sed: the stream editor, as far as the two scripts use it *)
(* ===================================================================== *)

Module Sed.
Import Text.

(** Bytes that the scripts and the editor single out. *)
Definition NL : byte := x0a.          (* "\n" *)
Definition SLASH : byte := x2f.       (* "/"  *)
Definition BACKSLASH : byte := x5c.   (* "\"  *)
Definition ASTERISK : byte := x2a.    (* "*"  *)
Definition AMPERSAND : byte := x26.   (* "&"  *)

(** A basic regular expression restricted to what the two scripts need: a
    sequence of single characters, each possibly followed by [*]. *)
Inductive atom : Type :=
| Chr (c : byte)
| Star (c : byte).

Definition regex := list atom.

(** The longest match of [re] anchored at the head of [s], as the number
    of bytes it covers.  [c*] takes as many [c] as it can and gives them
    back one at a time while the rest of the expression fails. *)
Fixpoint match_here (re : regex) (s : bytes) {struct re} : option nat :=
  match re with
  | [] => Some 0
  | Chr c :: re' =>
      match s with
      | y :: s' => if Byte.eqb c y then option_map S (match_here re' s')
                   else None
      | [] => None
      end
  | Star c :: re' =>
      (fix star (s : bytes) : option nat :=
         match s with
         | y :: s' =>
             if Byte.eqb c y then
               match star s' with
               | Some n => Some (S n)
               | None => match_here re' s
               end
             else match_here re' s
         | [] => match_here re' s
         end) s
  end.

(** [s/re/repl/g] on one pattern space (a line without its newline):
    scan from the left; where the expression matches, emit the replacement
    and resume after the match; elsewhere copy one byte.  Neither script's
    expression matches the empty string, and an empty match is not a
    substitution here. *)
Equations? gsub (re : regex) (repl : bytes) (s : bytes) : bytes
  by wf (List.length s) lt :=
gsub re repl [] := [];
gsub re repl (c :: t) with match_here re (c :: t) => {
  | Some (S n) := repl ++ gsub re repl (skipn n t);
  | _ := c :: gsub re repl t }.
Proof.
all: simpl; try lia.
pose proof (List.length_skipn n t). lia.
Qed.

(** The input split at newlines: [k] newlines give [k + 1] pieces, the
    last one being what follows the last newline (empty when the input
    ends with a newline). *)
Fixpoint split_lines (s : bytes) : list bytes :=
  match s with
  | [] => [[]]
  | c :: t =>
      if Byte.eqb c NL then [] :: split_lines t
      else match split_lines t with
           | l :: ls => (c :: l) :: ls
           | [] => [[c]]
           end
  end.

Fixpoint join_lines (ls : list bytes) : bytes :=
  match ls with
  | [] => []
  | [l] => l
  | l :: ls' => l ++ NL :: join_lines ls'
  end.

(** One cycle per line: the command is applied to the pattern space and
    the pattern space is written out; a missing final newline stays
    missing (GNU sed). *)
Definition sed_s (re : regex) (repl : bytes) (input : bytes) : bytes :=
  join_lines (map (gsub re repl) (split_lines input)).

(** *** Reading a script [s/regex/replacement/g]

    The text up to the next unescaped [/], each byte tagged with whether a
    backslash preceded it.  The only escape the scripts use is [\/]. *)
Fixpoint until_slash (s : bytes) : option (list (bool * byte) * bytes) :=
  match s with
  | [] => None
  | c :: t =>
      if Byte.eqb c SLASH then Some ([], t)
      else if Byte.eqb c BACKSLASH then
        match t with
        | d :: t' =>
            if Byte.eqb d SLASH then
              match until_slash t' with
              | Some (tok, rest) => Some ((true, d) :: tok, rest)
              | None => None
              end
            else None
        | [] => None
        end
      else
        match until_slash t with
        | Some (tok, rest) => Some ((false, c) :: tok, rest)
        | None => None
        end
  end.

(** Atoms from tagged bytes: an unescaped [*] after a character stars it. *)
Fixpoint atoms (tok : list (bool * byte)) : option regex :=
  match tok with
  | [] => Some []
  | (esc, c) :: tok' =>
      if negb esc && Byte.eqb c ASTERISK then None
      else
        match tok' with
        | (false, d) :: tok'' =>
            if Byte.eqb d ASTERISK
            then option_map (cons (Star c)) (atoms tok'')
            else option_map (cons (Chr c)) (atoms tok')
        | _ => option_map (cons (Chr c)) (atoms tok')
        end
  end.

(** The replacement text: literal bytes; [&] and back-references are not
    used by the scripts. *)
Fixpoint replacement (tok : list (bool * byte)) : option bytes :=
  match tok with
  | [] => Some []
  | (esc, c) :: tok' =>
      if negb esc && Byte.eqb c AMPERSAND then None
      else option_map (cons c) (replacement tok')
  end.

Definition parse_script (script : string) : option (regex * bytes) :=
  match blit script with
  | x73 :: x2f :: body =>                                   (* "s/" *)
      match until_slash body with
      | Some (re_tok, after_re) =>
          match until_slash after_re with
          | Some (repl_tok, [x67]) =>                       (* "g" *)
              match atoms re_tok, replacement repl_tok with
              | Some re, Some repl => Some (re, repl)
              | _, _ => None
              end
          | _ => None
          end
      | None => None
      end
  | _ => None
  end.

(** [sed script] as a filter from its input to its output; a script that
    the editor cannot read makes it exit without output. *)
Definition sed (script : string) (input : bytes) : bytes :=
  match parse_script script with
  | Some (re, repl) => sed_s re repl input
  | None => []
  end.
Arguments sed : simpl never.

End Sed.

(* ===================================================================== *)
(** ** Checker: the interpreter state and the program *)
(* ===================================================================== *)

Module Checker.
Import Text Sed.

(** The exceptions of the interpreter that matter here.  [sys.exit]
    raises [SystemExit]; the others come from [open], [f.read()] and
    [bytes.decode]. *)
Inductive Exn : Type :=
| FileNotFoundError
| PermissionError
| IsADirectoryError
| UnicodeDecodeError
| ValueError
| SystemExit (code : Z).

(** What a path names on disk. *)
Inductive Node : Type :=
| Regular (content : bytes)
| Unreadable
| Directory.

Definition Disk := str -> option Node.

(** Path resolution: the empty path names nothing. *)
Definition lookup (d : Disk) (name : str) : option Node :=
  match name with
  | [] => None
  | _ => d name
  end.

(** The calls of the run that reach the operating system, in order. *)
Inductive Event : Type :=
| EvPrint (s : str)                   (* text written to standard output *)
| EvOpen (name : str) (mode : string)  (* open(name, mode) *)
| EvPopen (argv : list str)           (* a child process started *)
| EvChildRead (name : str)            (* a file operand read by a child *)
| EvChildWrite (name : str).          (* a file created or emptied by a child *)

(** The world the script runs in.  Files may change while the script
    runs: [disk_at w t] is the disk as the [t]-th file access since the
    start of the history finds it, and [clock] is the number of accesses
    made so far.  What a child of the run writes to a file is recorded in
    the trace; what later accesses find is, as after the writes of any
    other process, what the history holds for them. *)
Record World : Type := {
  disk_at : nat -> Disk;
  clock : nat;
  trace : list Event
}.

Definition written (e : Event) : str :=
  match e with
  | EvPrint s => s
  | _ => []
  end.

(** Everything written to standard output so far. *)
Definition stdout (w : World) : str := flat_map written (trace w).

Definition log (e : Event) (w : World) : World :=
  {| disk_at := disk_at w; clock := clock w; trace := trace w ++ [e] |}.

Definition tick (w : World) : World :=
  {| disk_at := disk_at w; clock := S (clock w); trace := trace w |}.

(** *** A state-and-exception monad for the interpreter *)

Inductive Outcome (A : Type) : Type :=
| Returned (a : A)
| Raised (e : Exn).
Arguments Returned {A} a.
Arguments Raised {A} e.

Definition Py (A : Type) : Type := World -> Outcome A * World.

Definition ret {A} (a : A) : Py A := fun w => (Returned a, w).

Definition raise {A} (e : Exn) : Py A := fun w => (Raised e, w).

Definition bind {A B} (c : Py A) (k : A -> Py B) : Py B :=
  fun w =>
    match c w with
    | (Returned a, w') => k a w'
    | (Raised e, w') => (Raised e, w')
    end.

Declare Scope py_scope.
Delimit Scope py_scope with py.
Notation "x <- c ;; k" := (bind c (fun x => k))
  (at level 61, c at next level, right associativity) : py_scope.
Notation "c ;; k" := (bind c (fun _ => k))
  (at level 61, right associativity) : py_scope.
Open Scope py_scope.

(** The exit status the parent process sees when the interpreter ends
    with outcome [o]: 0 when the script runs off its end, the low eight
    bits of the code for [SystemExit(code)] (what [exit(3)] hands to
    [wait(2)]), and 1 for any other uncaught exception, after the
    traceback. *)
Definition exit_code {A} (o : Outcome A) : Z :=
  match o with
  | Returned _ => 0
  | Raised (SystemExit code) => Z.land code 255
  | Raised _ => 1
  end.

(** *** Primitives *)

(** [print(s, end=e)] *)
Definition print_end (s e : str) : Py unit :=
  fun w => (Returned tt, log (EvPrint (s ++ e)) w).

(** [print(s)] *)
Definition print (s : str) : Py unit := print_end s [LF].

(** The disk history of [w] with the file [name] empty from now on. *)
Definition truncated (name : str) (w : World) : World :=
  {| disk_at := fun t =>
       if Nat.leb (clock w) t
       then fun n => if str_eqb n name then Some (Regular [])
                     else disk_at w t n
       else disk_at w t;
     clock := clock w;
     trace := trace w |}.

(** [open(name, mode)] for the modes ['r'] and ['w']; the file object is
    the content that a later [read] returns.  Mode ['r'] leaves the disk
    as it is; mode ['w'] creates the file or empties it. *)
Definition open (name : str) (mode : string) : Py bytes :=
  fun w =>
    let found := lookup (disk_at w (clock w)) name in
    let w' := tick (log (EvOpen name mode) w) in
    if String.eqb mode "r" then
      match found with
      | Some (Regular content) => (Returned content, w')
      | Some Unreadable => (Raised PermissionError, w')
      | Some Directory => (Raised IsADirectoryError, w')
      | None => (Raised FileNotFoundError, w')
      end
    else if String.eqb mode "w" then
      match name, found with
      | [], _ => (Raised FileNotFoundError, w')
      | _, Some Unreadable => (Raised PermissionError, w')
      | _, Some Directory => (Raised IsADirectoryError, w')
      | _, _ => (Returned [], truncated name w')
      end
    else (Raised ValueError, w).

(** [sys.exit(status)] *)
Definition sys_exit (status : Z) : Py unit := raise (SystemExit status).

(** GNU sed takes options and operands in any order, and line 19 puts
    no [--] before [name]: a last argument that begins with [-] is not a
    file operand.  [-] alone names standard input, [--] ends the options,
    and anything longer is read as options, [-n] or [-fw.sed] for
    instance. *)
Definition DASH : N := 45.

Definition is_option (name : str) : bool :=
  match name with
  | c :: _ => N.eqb c DASH
  | [] => false
  end.

Definition logs (evs : list Event) (w : World) : World :=
  {| disk_at := disk_at w; clock := clock w; trace := trace w ++ evs |}.

(** [subprocess.Popen(argv, ...)]: the start of a child is logged. *)
Definition Popen (argv : list str) : Py unit :=
  fun w => (Returned tt, log (EvPopen argv) w).

Section Program.

(** The formatter, [clang-format-mp-7.0 -style=file], as the function from
    what it reads on standard input to what it writes on standard output,
    for the style file in force. *)
Variable clang_format : bytes -> bytes.

(** The decoder of the locale's preferred encoding, which [open(name, 'r')]
    uses for the file; [None] is a decoding error. *)
Variable preferred_encoding : bytes -> option str.

(** What the child of line 19 does when [name] is not a file operand to
    it: the bytes it writes to its standard output and the files it
    creates or empties, in the directory the run is in.  [-n] reads the
    standard input it inherits and writes nothing, [--help] writes the
    usage text, and [-fw.sed] runs the script of the file [w.sed], whose
    [w] commands create or empty the files they name. *)
Variable sed_option : str -> bytes * list str.

(** What a child started as [sed script name] does.  When [name] is a
    file operand it writes to its standard output the edited content of
    the file it finds there when it opens it, and nothing when it cannot
    read the file (its complaint goes to standard error and its exit
    status is not looked at).  When [name] begins with [-] the file of
    that name is not read. *)
Definition sed_file (script : string) (name : str) : Py bytes :=
  fun w =>
    if is_option name then
      (Returned (fst (sed_option name)),
       tick (logs (map EvChildWrite (snd (sed_option name))) w))
    else
      let w' := tick (log (EvChildRead name) w) in
      match lookup (disk_at w (clock w)) name with
      | Some (Regular content) => (Returned (sed script content), w')
      | _ => (Returned [], w')
      end.

(** [f.read()] on a file opened in text mode. *)
Definition read (f : bytes) : Py str :=
  match preferred_encoding f with
  | Some text => ret (universal_newlines text)
  | None => raise UnicodeDecodeError
  end.

(** [b.decode('utf-8')] *)
Definition decode (b : bytes) : Py str :=
  match utf8_decode b with
  | Some text => ret text
  | None => raise UnicodeDecodeError
  end.

Definition p1_script : string := "s/#pragma omp/\/\/#pragma omp/g".
Definition p3_script : string := "s/\/\/ *#pragma omp/#pragma omp/g".

(** The three children [p1 | p2 | p3] and [p3.communicate()[0]].  The
    first child opens its operand at some moment between its start and
    the end of [communicate]; the trace records it right after the start,
    in any case after the interpreter has closed the file.  The other two
    children are given no file to work on: they read their standard input
    and write to their standard output. *)
Definition communicate (name : str) : Py bytes :=
  Popen [lit "sed"; lit p1_script; name] ;;
  p1 <- sed_file p1_script name ;;
  Popen [lit "clang-format-mp-7.0"; lit "-style=file"] ;;
  Popen [lit "sed"; lit p3_script] ;;
  ret (sed p3_script (clang_format p1)).

(** The body of [for name in files:]; it returns the new [status]. *)
Definition loop_body (name : str) (status : Z) : Py Z :=
  print_end (name ++ lit ": ") [] ;;
  f <- open name "r" ;;
  original <- read f ;;
  out <- communicate name ;;
  formatted <- decode out ;;
  if str_eqb original formatted then
    print (lit "OK" ++ [LF]) ;;
    ret status
  else
    print (lit "needs formatting" ++ [LF]) ;;
    ret (status + 1)%Z.

Fixpoint for_each (names : list str) (status : Z) : Py Z :=
  match names with
  | [] => ret status
  | name :: rest =>
      status' <- loop_body name status ;;
      for_each rest status'
  end.

(** [files = [name.strip() for name in sys.stdin.readlines()]].  On a
    POSIX system the interpreter opens standard input with [newline='\n']:
    lines end at ["\n"] and nothing is translated. *)
Definition files (stdin : str) : list str :=
  map strip (readlines stdin).

(** The whole script, on the text that standard input delivers. *)
Definition main (stdin : str) : Py unit :=
  status <- for_each (files stdin) 0%Z ;;
  sys_exit status.

(** *** What a run observes

    The definitions below are not part of the script: they name what the
    theorems speak about. *)

(** The filter [p1 | p2 | p3] on the bytes that [p1] reads. *)
Definition pipeline (input : bytes) : bytes :=
  sed p3_script (clang_format (sed p1_script input)).

(** [original], from what [open] finds. *)
Definition original_of (found : option Node) : option str :=
  match found with
  | Some (Regular content) =>
      option_map universal_newlines (preferred_encoding content)
  | _ => None
  end.

(** What the first [sed] writes, from what is found at [name] when it
    runs. *)
Definition p1_output (name : str) (found : option Node) : bytes :=
  if is_option name then fst (sed_option name)
  else
    match found with
    | Some (Regular content) => sed p1_script content
    | _ => []
    end.

(** What [p3.communicate()[0]] is when the first [sed] runs at instant
    [t]. *)
Definition pipe_output (w : World) (t : nat) (name : str) : bytes :=
  sed p3_script (clang_format (p1_output name (lookup (disk_at w t) name))).

(** [formatted], when the first [sed] runs at instant [t]. *)
Definition formatted_at (w : World) (t : nat) (name : str) : option str :=
  utf8_decode (pipe_output w t name).

(** The comparison of the iteration that starts at instant [t] on [name]:
    [Some true] when the two texts are equal, [Some false] when they
    differ, [None] when the iteration raises before it compares. *)
Definition conforms_at (w : World) (t : nat) (name : str) : option bool :=
  match original_of (lookup (disk_at w t) name),
        formatted_at w (S t) name with
  | Some original, Some formatted => Some (str_eqb original formatted)
  | _, _ => None
  end.

(** The comparisons of a whole list of paths, two accesses per path. *)
Fixpoint conformance (w : World) (t : nat) (names : list str)
  : option (list bool) :=
  match names with
  | [] => Some []
  | name :: rest =>
      match conforms_at w t name with
      | Some v => option_map (cons v) (conformance w (S (S t)) rest)
      | None => None
      end
  end.

(** The verdict word and the text printed for one path. *)
Definition verdict (ok : bool) : str :=
  if ok then lit "OK" else lit "needs formatting".

Definition report (name : str) (ok : bool) : str :=
  name ++ lit ": " ++ verdict ok ++ [LF; LF].

Definition reports (names : list str) (vs : list bool) : str :=
  flat_map (fun nv => report (fst nv) (snd nv)) (combine names vs).

(** The events of one iteration, in the order of the calls: the prefix
    is printed, the file is opened; the three children are started, the
    first of them opening the file it was given as operand, or doing what
    the option it was given makes it do; the verdict is printed. *)
Definition started (name : str) : list Event :=
  [EvPrint (name ++ lit ": "); EvOpen name "r"].

Definition child_events (name : str) : list Event :=
  if is_option name then map EvChildWrite (snd (sed_option name))
  else [EvChildRead name].

Definition piped (name : str) : list Event :=
  EvPopen [lit "sed"; lit p1_script; name]
  :: child_events name
  ++ [EvPopen [lit "clang-format-mp-7.0"; lit "-style=file"];
      EvPopen [lit "sed"; lit p3_script]].

Definition iteration (name : str) (ok : bool) : list Event :=
  started name ++ piped name ++ [EvPrint (verdict ok ++ [LF; LF])].

Definition iterations (names : list str) (vs : list bool) : list Event :=
  flat_map (fun nv => iteration (fst nv) (snd nv)) (combine names vs).

(** The world [w] after [n] more file accesses and the events [evs]. *)
Definition after (w : World) (n : nat) (evs : list Event) : World :=
  {| disk_at := disk_at w; clock := n + clock w; trace := trace w ++ evs |}.

(** An event that leaves every file as it is: a write to standard output,
    an [open] for reading, the start of a child, a child that reads a
    file.  What a child does to files after its start is in the events of
    the child. *)
Definition leaves_files (e : Event) : Prop :=
  match e with
  | EvPrint _ => True
  | EvOpen _ mode => mode = "r"%string
  | EvPopen _ => True
  | EvChildRead _ => True
  | EvChildWrite _ => False
  end.

(** A line that [readlines] returns has no newline, or one at its end. *)
Definition line_shape (l : str) : Prop :=
  exists body, ~ In LF body /\ (l = body \/ l = body ++ [LF]).

(** The two lines printed for one path. *)
Definition report_lines (name : str) (ok : bool) : list str :=
  [name ++ lit ": " ++ verdict ok ++ [LF]; [LF]].

(** The number of entries found to differ. *)
Definition differing (vs : list bool) : nat :=
  List.length (filter negb vs).

(** [open] raises one of the three file-access errors on what it finds. *)
Definition access_error (found : option Node) : option Exn :=
  match found with
  | None => Some FileNotFoundError
  | Some Unreadable => Some PermissionError
  | Some Directory => Some IsADirectoryError
  | Some (Regular _) => None
  end.

End Program.

End Checker.

(* ===================================================================== *)
(** ** Examples: a small disk and a stand-in formatter *)
(* ===================================================================== *)

Module Examples.
Import Text Sed Checker.

Definition SPACE : byte := x20.

Fixpoint ltrim (l : bytes) : bytes :=
  match l with
  | c :: t => if Byte.eqb c SPACE then ltrim t else l
  | [] => []
  end.

Definition rtrim (l : bytes) : bytes := rev (ltrim (rev l)).

(** Runs of spaces squeezed to a single space. *)
Fixpoint squeeze_after (space_before : bool) (l : bytes) : bytes :=
  match l with
  | c :: t =>
      if Byte.eqb c SPACE then
        if space_before then squeeze_after true t
        else c :: squeeze_after true t
      else c :: squeeze_after false t
  | [] => []
  end.

Definition squeeze (l : bytes) : bytes := squeeze_after false l.

Definition is_line_comment (l : bytes) : bool :=
  match l with
  | x2f :: x2f :: _ => true
  | _ => false
  end.

(** A stand-in for the formatter: it removes trailing spaces from every
    line, and squeezes runs of spaces in the lines that are not [//]
    comments. *)
Definition tidy_line (l : bytes) : bytes :=
  let l' := rtrim l in
  if is_line_comment l' then l' else squeeze l'.

Definition tidy (input : bytes) : bytes :=
  join_lines (map tidy_line (split_lines input)).

(** A formatter that changes nothing. *)
Definition keep (input : bytes) : bytes := input.

Definition disk_of (entries : list (str * Node)) : Disk :=
  fun name =>
    match find (fun e => str_eqb (fst e) name) entries with
    | Some e => Some (snd e)
    | None => None
    end.

(** A world whose disk nobody else touches, at the start of a run. *)
Definition quiet (d : Disk) : World :=
  {| disk_at := fun _ => d; clock := 0; trace := [] |}.

(** A world where the disk is [d1] at the first access and [d2] later. *)
Definition changing (d1 d2 : Disk) : World :=
  {| disk_at := fun t => match t with O => d1 | S _ => d2 end;
     clock := 0; trace := [] |}.

(** Files of a small project. *)
Definition conforming : bytes := blit "int x;" ++ [NL].
Definition conforming' : bytes := blit "int y;" ++ [NL].
Definition unformatted : bytes := blit "int  x;" ++ [NL].
Definition directive : bytes :=
  blit "#pragma omp parallel   for" ++ [NL] ++ blit "for (;;) {}" ++ [NL].
Definition directive_trailing_space : bytes :=
  blit "#pragma omp parallel for " ++ [NL].
Definition crlf : bytes := blit "int x;" ++ [x0d; NL].

Definition project : Disk :=
  disk_of
    [(lit "a.c", Regular conforming);
     (lit "b.c", Regular unformatted);
     (lit "c.c", Regular unformatted);
     (lit "omp.c", Regular directive);
     (lit "crlf.c", Regular crlf);
     (lit "secret.c", Unreadable);
     (lit "src", Directory)].

(** The project after somebody rewrote [a.c], still well formatted. *)
Definition project' : Disk :=
  disk_of [(lit "a.c", Regular conforming')].

(** Standard input: one path per line. *)
Definition one_per_line (names : list str) : str :=
  flat_map (fun name => name ++ [LF]) names.

Definition three_paths : str :=
  one_per_line [lit "b.c"; lit "a.c"; lit "c.c"].

Definition many_paths : str := one_per_line (repeat (lit "b.c") 256).

(** A list with a line of spaces in the middle. *)
Definition blank_line_paths : str :=
  one_per_line [lit "a.c"; lit "   "; lit "b.c"].

Definition secret_paths : str :=
  one_per_line [lit "a.c"; lit "secret.c"; lit "b.c"].

(** A directory with files whose names begin with [-], a sed script
    [w.sed] that holds one [w] command, and the file that command names. *)
Definition dashed : Disk :=
  disk_of
    [(lit "-n", Regular conforming);
     (lit "-fw.sed", Regular conforming);
     (lit "w.sed", Regular (blit "w victim.c" ++ [NL]));
     (lit "victim.c", Regular conforming)].

(** A stand-in for what sed does with an option in that directory.  With
    [-fw.sed] it takes its commands from [w.sed]: it opens [victim.c]
    for writing, which empties it, then looks for an input file named by
    the script of line 19, finds none and writes nothing.  With [-n], as
    with the other options, it reads the standard input the interpreter
    has left at its end, and writes nothing. *)
Definition gnu_sed (name : str) : bytes * list str :=
  if str_eqb name (lit "-fw.sed") then ([], [lit "victim.c"])
  else ([], []).

Definition dashed_paths : str := one_per_line [lit "-fw.sed"].

(** A directive with odd spacing, followed by code with odd spacing. *)
Definition directive_and_code : bytes := directive ++ unformatted.

End Examples.

(* ===================================================================== *)
(** ** Notions: what the further properties speak about *)
(* ===================================================================== *)

Module Notions.
Import Text Sed Checker.

(** The directive marker of the two scripts. *)
Definition MARKER : bytes := blit "#pragma omp".

(** [p] occurs somewhere in [s]. *)
Definition occurs (p s : bytes) : Prop :=
  exists pre post, s = pre ++ p ++ post.

(** Whether [p] occurs somewhere in [s], computed. *)
Fixpoint occursb (p s : bytes) : bool :=
  match match_here (map Chr p) s with
  | Some _ => true
  | None =>
      match s with
      | [] => false
      | _ :: t => occursb p t
      end
  end.

(** A world whose disk is the same at every instant. *)
Definition still (w : World) : Prop :=
  forall t, disk_at w t = disk_at w 0.

(** Latin-1 as the locale's preferred encoding: every byte is its code
    point, and every file decodes. *)
Definition latin1_decode (bs : bytes) : option str :=
  Some (map Byte.to_N bs).

(** A file in Latin-1 with a byte above 127: ["caf\xe9"] and a newline. *)
Definition latin1_file : bytes := blit "caf" ++ [xe9; NL].

(** A disk with that file only. *)
Definition latin1_project : Disk :=
  Examples.disk_of [(lit "cafe.c", Regular latin1_file)].

(** A file that is there at the first access and gone afterwards. *)
Definition vanishing : World :=
  Examples.changing Examples.project (Examples.disk_of []).

(** Paths with white space around them, a blank line, and a last line
    without newline. *)
Definition loose_names : list str := [lit "  a.c "; lit ""; lit "b.c"].
Definition loose_last : str := lit "c.c  ".

(** The three paths of [Examples.three_paths] in another order. *)
Definition three_paths_reordered : str :=
  Examples.one_per_line [lit "a.c"; lit "c.c"; lit "b.c"].

(** White space at the head of a line: spaces and tabs. *)
Definition blank (c : byte) : Prop := c = x20 \/ c = x09.

(** The exceptions that end a run before [sys.exit]. *)
Definition stops_run (e : Exn) : Prop :=
  e = FileNotFoundError \/ e = PermissionError \/ e = IsADirectoryError
  \/ e = UnicodeDecodeError.

End Notions.

(* ===================================================================== *)
(** ** Properties of the checker *)
(* ===================================================================== *)

Import Text Sed Checker.

(** *** Texts *)

Lemma str_eqb_eq (a b : str) : str_eqb a b = true <-> a = b.
Proof.
revert b; induction a as [|x a IH]; intros [|y b]; simpl;
  try (split; [discriminate | congruence]); try tauto.
rewrite andb_true_iff, N.eqb_eq, IH.
split; [intros [-> ->]; reflexivity | intros H; injection H; auto].
Qed.

Lemma str_eqb_refl (a : str) : str_eqb a a = true.
Proof. apply str_eqb_eq; reflexivity. Qed.

(** *** Standard output and the trace *)

Lemma stdout_after (w : World) (n : nat) (evs : list Event) :
  stdout (after w n evs) = stdout w ++ flat_map written evs.
Proof. unfold stdout, after; simpl. apply flat_map_app. Qed.

Lemma after_after (w : World) n m evs evs' :
  after (after w n evs) m evs' = after w (m + n) (evs ++ evs').
Proof.
unfold after; simpl. f_equal; [lia | symmetry; apply app_assoc].
Qed.

Lemma after_nothing (w : World) : after w 0 [] = w.
Proof. destruct w; unfold after; simpl. now rewrite app_nil_r. Qed.

Lemma written_child_events (sed_option : str -> bytes * list str)
  (name : str) :
  flat_map written (child_events sed_option name) = [].
Proof.
unfold child_events. destruct (is_option name); [|reflexivity].
induction (snd (sed_option name)) as [|f fs IH]; [reflexivity | exact IH].
Qed.

Lemma written_iteration (sed_option : str -> bytes * list str)
  (name : str) (ok : bool) :
  flat_map written (iteration sed_option name ok) = report name ok.
Proof.
unfold iteration, started, piped, report.
cbn [app flat_map written].
rewrite !flat_map_app, written_child_events. cbn [app flat_map written].
rewrite !app_nil_r. now rewrite <- !app_assoc.
Qed.

Lemma written_iterations (sed_option : str -> bytes * list str)
  (names : list str) (vs : list bool) :
  flat_map written (iterations sed_option names vs) = reports names vs.
Proof.
unfold iterations, reports.
induction (combine names vs) as [|[name v] l IH]; [reflexivity|].
cbn [flat_map fst snd].
now rewrite flat_map_app, written_iteration, IH.
Qed.

(** *** One iteration *)

Section Iteration.

Variable clang_format : bytes -> bytes.
Variable preferred_encoding : bytes -> option str.
Variable sed_option : str -> bytes * list str.

Local Abbreviation loop_body := (loop_body clang_format preferred_encoding sed_option).
Local Abbreviation for_each := (for_each clang_format preferred_encoding sed_option).
Local Abbreviation main := (main clang_format preferred_encoding sed_option).
Local Abbreviation conforms_at :=
  (conforms_at clang_format preferred_encoding sed_option).
Local Abbreviation conformance :=
  (conformance clang_format preferred_encoding sed_option).
Local Abbreviation piped := (piped sed_option).
Local Abbreviation iteration := (iteration sed_option).
Local Abbreviation iterations := (iterations sed_option).
Local Abbreviation pipe_output := (pipe_output clang_format sed_option).
Local Abbreviation formatted_at := (formatted_at clang_format sed_option).

Lemma communicate_eq (name : str) (w : World) :
  communicate clang_format sed_option name w =
    (Returned (pipe_output w (clock w) name), after w 1 (piped name)).
Proof.
unfold communicate, bind, Popen, sed_file, ret, Checker.pipe_output,
  p1_output, log, logs, tick, after, Checker.piped, child_events.
cbn [disk_at clock trace].
destruct (is_option name).
- cbn [disk_at clock trace Nat.add app].
  rewrite <- !app_assoc. reflexivity.
- destruct (lookup (disk_at w (clock w)) name) as [[c| |]|];
    cbn [disk_at clock trace Nat.add app];
    rewrite <- ?app_assoc; reflexivity.
Qed.

(** The body, computed: one case per way the iteration can go. *)
Lemma loop_body_eq (name : str) (status : Z) (w : World) :
  loop_body name status w =
    match lookup (disk_at w (clock w)) name with
    | Some (Regular content) =>
        match preferred_encoding content with
        | Some text =>
            match formatted_at w (S (clock w)) name with
            | Some formatted =>
                let v := str_eqb (universal_newlines text) formatted in
                (Returned (status + (if v then 0 else 1))%Z,
                 after w 2 (iteration name v))
            | None =>
                (Raised UnicodeDecodeError,
                 after w 2 (started name ++ piped name))
            end
        | None => (Raised UnicodeDecodeError, after w 1 (started name))
        end
    | Some Unreadable => (Raised PermissionError, after w 1 (started name))
    | Some Directory => (Raised IsADirectoryError, after w 1 (started name))
    | None => (Raised FileNotFoundError, after w 1 (started name))
    end.
Proof.
unfold Checker.loop_body, Checker.formatted_at.
unfold bind at 1. unfold print_end at 1.
unfold bind at 1. unfold open at 1. unfold log, tick.
cbn [disk_at clock trace String.eqb Ascii.eqb Bool.eqb].
assert (E1 :
  {| disk_at := disk_at w; clock := S (clock w);
     trace := (trace w ++ [EvPrint ((name ++ lit ": ") ++ [])]) ++
              [EvOpen name "r"] |} = after w 1 (started name)).
{ unfold after, started. rewrite app_nil_r, <- app_assoc. reflexivity. }
rewrite E1.
destruct (lookup (disk_at w (clock w)) name) as [[c1| |]|];
  try reflexivity.
unfold bind at 1. unfold read at 1.
destruct (preferred_encoding c1) as [t1|]; [|reflexivity].
unfold ret at 1. unfold bind at 1.
rewrite communicate_eq, after_after.
cbn [after clock disk_at Nat.add].
unfold bind at 1. unfold decode at 1.
destruct (utf8_decode _) as [f|]; [|reflexivity].
unfold ret at 1. cbv zeta.
destruct (str_eqb (universal_newlines t1) f);
  unfold bind, print, print_end, ret, log, after, iteration, verdict;
  cbn [disk_at clock trace Nat.add];
  rewrite ?Z.add_0_r, <- ?app_assoc; reflexivity.
Qed.

(** The iteration whose two accesses succeed and whose two texts decode
    prints its verdict and counts the entry when the texts differ. *)
Lemma loop_body_compares (name : str) (status : Z) (w : World) (v : bool) :
  conforms_at w (clock w) name = Some v ->
  loop_body name status w =
    (Returned (status + (if v then 0 else 1))%Z,
     after w 2 (iteration name v)).
Proof.
rewrite loop_body_eq.
unfold Checker.conforms_at, Checker.original_of.
destruct (lookup (disk_at w (clock w)) name) as [[c1| |]|]; try discriminate.
destruct (preferred_encoding c1) as [t1|]; try discriminate.
cbn [option_map].
destruct (formatted_at w _ name) as [f|]; try discriminate.
intros H; injection H as <-. reflexivity.
Qed.

(** The iteration whose [open] fails stops there: the prefix is printed,
    the file access error is raised, no child is started. *)
Lemma loop_body_access_error (name : str) (status : Z) (w : World) (e : Exn) :
  access_error (lookup (disk_at w (clock w)) name) = Some e ->
  loop_body name status w = (Raised e, after w 1 (started name)).
Proof.
rewrite loop_body_eq.
destruct (lookup (disk_at w (clock w)) name) as [[c1| |]|]; simpl;
  try discriminate; intros H; injection H as <-; reflexivity.
Qed.

(** An iteration that does not reach its comparison raises an exception
    that is not [SystemExit]. *)
Lemma loop_body_raises (name : str) (status : Z) (w : World) :
  conforms_at w (clock w) name = None ->
  exists e w', loop_body name status w = (Raised e, w') /\
               exit_code (@Raised unit e) = 1%Z.
Proof.
rewrite loop_body_eq.
unfold Checker.conforms_at, Checker.original_of.
destruct (lookup (disk_at w (clock w)) name) as [[c1| |]|];
  try (intros _; eexists; eexists; split; reflexivity).
destruct (preferred_encoding c1) as [t1|];
  try (intros _; eexists; eexists; split; reflexivity).
cbn [option_map].
destruct (formatted_at w _ name) as [f|]; try discriminate.
intros _; eexists; eexists; split; reflexivity.
Qed.

(** *** The loop *)

Lemma conformance_after (w : World) n evs t names :
  conformance (after w n evs) t names = conformance w t names.
Proof.
revert t; induction names as [|name rest IH]; intros t; simpl; [reflexivity|].
rewrite IH. reflexivity.
Qed.

Lemma combine_lengths names vs w t :
  conformance w t names = Some vs -> List.length vs = List.length names.
Proof.
revert t vs; induction names as [|name rest IH]; intros t vs; simpl.
- intros H; injection H as <-; reflexivity.
- destruct (conforms_at w t name) as [v|]; [|discriminate].
  destruct (conformance w (S (S t)) rest) as [vs'|] eqn:E; [|discriminate].
  simpl; intros H; injection H as <-. simpl. f_equal. eapply IH; eauto.
Qed.

Lemma differing_cons (v : bool) (vs : list bool) :
  Z.of_nat (differing (v :: vs)) =
  ((if v then 0 else 1) + Z.of_nat (differing vs))%Z.
Proof. unfold differing; destruct v; cbn [filter negb List.length]; lia. Qed.

(** When every iteration reaches its comparison, the loop runs to its end:
    it returns [status] plus the number of entries that differ, after two
    accesses and one report per entry. *)
Lemma for_each_conformance (names : list str) :
  forall (status : Z) (w : World) (vs : list bool),
  conformance w (clock w) names = Some vs ->
  for_each names status w =
    (Returned (status + Z.of_nat (differing vs))%Z,
     after w (2 * List.length names) (iterations names vs)).
Proof.
induction names as [|name rest IH]; intros status w vs; simpl.
- intros H; injection H as <-. unfold ret; simpl.
  now rewrite Z.add_0_r, after_nothing.
- destruct (conforms_at w (clock w) name) as [v|] eqn:Ev; [|discriminate].
  destruct (conformance w (S (S (clock w))) rest) as [vs'|] eqn:E;
    [|discriminate].
  simpl; intros H; injection H as <-.
  unfold bind at 1. rewrite (loop_body_compares name status w v Ev).
  rewrite (IH _ _ vs').
  + rewrite after_after, differing_cons. f_equal; [f_equal; lia|].
    f_equal. lia.
  + rewrite conformance_after. exact E.
Qed.

(** Conversely, a loop that returns has compared every entry. *)
Lemma for_each_returned (names : list str) :
  forall (status s : Z) (w w' : World),
  for_each names status w = (Returned s, w') ->
  exists vs, conformance w (clock w) names = Some vs.
Proof.
induction names as [|name rest IH]; intros status s w w'; simpl.
- intros _; now exists [].
- destruct (conforms_at w (clock w) name) as [v|] eqn:Ev.
  + unfold bind at 1. rewrite (loop_body_compares name status w v Ev).
    intros H. apply IH in H. destruct H as [vs H].
    rewrite conformance_after in H. simpl in H. rewrite H.
    now exists (v :: vs).
  + destruct (loop_body_raises name status w Ev) as (e & w1 & H & _).
    unfold bind at 1. rewrite H. discriminate.
Qed.

Lemma for_each_app (pre rest : list str) (status : Z) (w : World) :
  for_each (pre ++ rest) status w =
  bind (for_each pre status) (for_each rest) w.
Proof.
revert status w; induction pre as [|name pre IH]; intros status w; simpl.
- reflexivity.
- unfold bind in *.
  destruct (loop_body name status w) as [[s1|e] w1]; [apply IH|reflexivity].
Qed.

(** The loop stops at the first entry that cannot be opened: the entries
    before it are reported, its own prefix is printed, nothing follows. *)
Lemma for_each_access_error (pre post : list str) (bad : str) (e : Exn) :
  forall (status : Z) (w : World) (vs : list bool),
  conformance w (clock w) pre = Some vs ->
  access_error
    (lookup (disk_at w (2 * List.length pre + clock w)) bad) = Some e ->
  for_each (pre ++ bad :: post) status w =
    (Raised e,
     after w (1 + 2 * List.length pre) (iterations pre vs ++ started bad)).
Proof.
intros status w vs Hpre Hbad.
rewrite for_each_app. unfold bind at 1.
rewrite (for_each_conformance pre status w vs Hpre).
simpl for_each. unfold bind at 1.
rewrite (loop_body_access_error bad _ _ e); [|exact Hbad].
now rewrite after_after.
Qed.

(** *** The whole run *)

Lemma main_conformance (stdin : str) (w : World) (vs : list bool) :
  conformance w (clock w) (files stdin) = Some vs ->
  main stdin w =
    (Raised (SystemExit (Z.of_nat (differing vs))),
     after w (2 * List.length (files stdin)) (iterations (files stdin) vs)).
Proof.
intros H. unfold Checker.main, bind.
rewrite (for_each_conformance _ 0%Z w vs H). reflexivity.
Qed.

Lemma differing_zero (vs : list bool) :
  differing vs = 0 <-> Forall (fun v => v = true) vs.
Proof.
unfold differing. induction vs as [|[|] vs IH]; simpl.
- split; auto.
- rewrite IH. split; [auto | intros H; inversion H; auto].
- split; [discriminate | intros H; inversion H; discriminate].
Qed.

Lemma land_255_small (n : nat) :
  n < 256 -> Z.land (Z.of_nat n) 255 = Z.of_nat n.
Proof.
intros H. change 255%Z with (Z.ones 8).
rewrite Z.land_ones by lia. apply Z.mod_small. lia.
Qed.

Lemma started_leaves_files (name : str) : Forall leaves_files (started name).
Proof. repeat constructor. Qed.

(** The children of an iteration on a file operand leave files alone. *)
Lemma piped_leaves_files (name : str) :
  is_option name = false -> Forall leaves_files (piped name).
Proof.
intros H. unfold Checker.piped, child_events. rewrite H.
repeat constructor.
Qed.

(** Whatever happens in an iteration, the world after it is the world
    before it plus some accesses and some events, the first two being the
    print of the prefix and the [open]; on a file operand the events
    leave files alone. *)
Lemma loop_body_world (name : str) (status : Z) (w : World) :
  exists n evs,
    snd (loop_body name status w) = after w n (started name ++ evs) /\
    (is_option name = false -> Forall leaves_files evs).
Proof.
rewrite loop_body_eq.
destruct (lookup (disk_at w (clock w)) name) as [[c1| |]|];
  try (exists 1, []; rewrite app_nil_r; split; [reflexivity|constructor]).
destruct (preferred_encoding c1) as [t1|];
  try (exists 1, []; rewrite app_nil_r; split; [reflexivity|constructor]).
destruct (formatted_at w _ name) as [f|]; cbv zeta.
- eexists 2, _; split; [reflexivity|]. intros H.
  apply Forall_app; split; [now apply piped_leaves_files|].
  repeat constructor.
- eexists 2, _; split; [reflexivity|]. apply piped_leaves_files.
Qed.

Lemma for_each_world (names : list str) :
  forall (status : Z) (w : World),
  exists n evs,
    snd (for_each names status w) = after w n evs /\
    (Forall (fun name => is_option name = false) names ->
     Forall leaves_files evs).
Proof.
induction names as [|name rest IH]; intros status w; simpl.
- exists 0, []. rewrite after_nothing. split; [reflexivity|constructor].
- destruct (loop_body_world name status w) as (n & evs & H & Hevs).
  unfold bind. destruct (loop_body name status w) as [[s1|e] w1];
    cbn [snd] in H; subst w1; cbv beta iota.
  + destruct (IH s1 (after w n (started name ++ evs)))
      as (m & evs' & H' & Hevs').
    rewrite H', after_after. eexists _, _; split; [reflexivity|].
    intros Hn. inversion Hn; subst.
    repeat (apply Forall_app; split); auto using started_leaves_files.
  + eexists _, _; split; [reflexivity|].
    intros Hn. inversion Hn; subst.
    apply Forall_app; split; auto using started_leaves_files.
Qed.

End Iteration.

(** *** The list of paths and the printed lines *)

Lemma lstrip_incl (s : str) (x : N) : In x (lstrip s) -> In x s.
Proof.
induction s as [|c t IH]; simpl; [tauto|].
destruct (isspace c); simpl; auto.
Qed.

Lemma rstrip_incl (s : str) (x : N) : In x (rstrip s) -> In x s.
Proof.
unfold rstrip. intros H. apply in_rev. apply lstrip_incl. now apply in_rev.
Qed.

Lemma rstrip_final_LF (body : str) : rstrip (body ++ [LF]) = rstrip body.
Proof. unfold rstrip. rewrite rev_app_distr. reflexivity. Qed.

Lemma readlines_shape (s : str) : Forall line_shape (readlines s).
Proof.
induction s as [|c t IH]; simpl; [constructor|].
destruct (N.eqb_spec c LF) as [->|Hc].
- constructor; [|exact IH]. exists []. split; [tauto | now right].
- destruct (readlines t) as [|l ls].
  + constructor; [|constructor]. exists [c]. split; [|now left].
    simpl. intros [H|[]]. congruence.
  + inversion IH as [|? ? (body & Hb & Hl) Hls]; subst.
    constructor; [|exact Hls]. exists (c :: body). split.
    * simpl. intros [H|H]; [congruence | tauto].
    * destruct Hl as [->| ->]; [now left | now right].
Qed.

Lemma strip_line_no_LF (l : str) : line_shape l -> ~ In LF (strip l).
Proof.
intros (body & Hb & Hl) H. apply Hb. unfold strip in H.
apply lstrip_incl in H.
destruct Hl as [->| ->]; [|rewrite rstrip_final_LF in H];
  now apply rstrip_incl.
Qed.

(** No path of the list contains a newline. *)
Lemma files_no_LF (stdin : str) :
  Forall (fun name => ~ In LF name) (files stdin).
Proof.
unfold files. apply Forall_map.
eapply Forall_impl; [|apply readlines_shape].
intros l. apply strip_line_no_LF.
Qed.

(** A line made of white space only is the empty path. *)
Lemma strip_whitespace (l : str) :
  Forall (fun c => isspace c = true) l -> strip l = [].
Proof.
intros H. unfold strip, rstrip.
assert (E : forall s, Forall (fun c => isspace c = true) s -> lstrip s = []).
{ induction s as [|c t IH]; simpl; [reflexivity|].
  intros Hs; inversion Hs as [|? ? Hc Ht]; subst. rewrite Hc. auto. }
rewrite (E (rev l)); [reflexivity|]. now apply Forall_rev.
Qed.

Lemma readlines_line (l rest : str) :
  ~ In LF l -> readlines (l ++ LF :: rest) = (l ++ [LF]) :: readlines rest.
Proof.
induction l as [|c l IH]; intros H; simpl.
- reflexivity.
- destruct (N.eqb_spec c LF) as [->|Hc]; [exfalso; apply H; now left|].
  rewrite IH; [reflexivity|]. intros Hl; apply H; now right.
Qed.

Lemma verdict_no_LF (v : bool) : ~ In LF (verdict v).
Proof.
destruct v; unfold verdict; vm_compute;
  intros H; repeat (destruct H as [H|H]; [discriminate|]); exact H.
Qed.

Lemma readlines_report (name : str) (v : bool) (rest : str) :
  ~ In LF name ->
  readlines (report name v ++ rest) = report_lines name v ++ readlines rest.
Proof.
intros H. unfold report, report_lines.
replace ((name ++ lit ": " ++ verdict v ++ [LF; LF]) ++ rest)
  with ((name ++ lit ": " ++ verdict v) ++ LF :: ([] ++ LF :: rest)).
2: { rewrite <- !app_assoc. reflexivity. }
rewrite readlines_line.
- rewrite readlines_line by tauto. rewrite <- !app_assoc. reflexivity.
- rewrite !in_app_iff. intros [Hn|[Hl|Hv]]; [tauto| |].
  + vm_compute in Hl. repeat (destruct Hl as [Hl|Hl]; [discriminate|]).
    exact Hl.
  + exact (verdict_no_LF _ Hv).
Qed.

Lemma readlines_reports (names : list str) (vs : list bool) :
  Forall (fun name => ~ In LF name) names ->
  readlines (reports names vs) =
  flat_map (fun nv => report_lines (fst nv) (snd nv)) (combine names vs).
Proof.
intros H. unfold reports. revert vs.
induction H as [|name names Hn Hns IH]; intros [|v vs]; try reflexivity.
cbn [combine flat_map fst snd].
rewrite readlines_report by exact Hn. now rewrite IH.
Qed.

(** *** The run, as the specification describes it *)

Section Run.

Variable clang_format : bytes -> bytes.
Variable preferred_encoding : bytes -> option str.
Variable sed_option : str -> bytes * list str.

Local Abbreviation loop_body := (loop_body clang_format preferred_encoding sed_option).
Local Abbreviation main := (main clang_format preferred_encoding sed_option).
Local Abbreviation conforms_at :=
  (conforms_at clang_format preferred_encoding sed_option).
Local Abbreviation conformance :=
  (conformance clang_format preferred_encoding sed_option).
Local Abbreviation piped := (piped sed_option).
Local Abbreviation iteration := (iteration sed_option).
Local Abbreviation iterations := (iterations sed_option).
Local Abbreviation pipe_output := (pipe_output clang_format sed_option).
Local Abbreviation formatted_at := (formatted_at clang_format sed_option).

(** C7.  On an empty standard input the list of paths is empty: the
    script prints nothing, accesses no file, raises [SystemExit(0)], and
    the process exits with code 0. *)
Theorem empty_input_prints_nothing_exits_zero (w : World) :
  main [] w = (Raised (SystemExit 0), w) /\
  stdout (snd (main [] w)) = stdout w /\
  exit_code (fst (main [] w)) = 0%Z.
Proof. repeat split. Qed.

(** C1, amended.  When every listed entry is read and compared, the
    script calls [sys.exit] with the exact number of entries that differ;
    when that number is below 256 the exit code of the process is that
    number, and it is 0 exactly when every entry conforms. *)
Theorem exit_code_counts_differing_below_256
  (stdin : str) (w : World) (vs : list bool) :
  conformance w (clock w) (files stdin) = Some vs ->
  differing vs < 256 ->
  fst (main stdin w) = Raised (SystemExit (Z.of_nat (differing vs))) /\
  exit_code (fst (main stdin w)) = Z.of_nat (differing vs) /\
  (exit_code (fst (main stdin w)) = 0%Z <-> Forall (fun v => v = true) vs).
Proof.
intros H Hlt.
rewrite (main_conformance clang_format preferred_encoding sed_option stdin w vs H).
cbn [fst exit_code].
rewrite land_255_small by exact Hlt.
repeat split.
- intros E. apply differing_zero. lia.
- intros E. apply differing_zero in E. lia.
Qed.

(** C2, amended.  For a file that is read (its content found and
    decoded in the locale's encoding) and whose pipe output decodes as
    UTF-8, the iteration prints [OK] and leaves the count as it is exactly
    when the two texts, [original] and [formatted], are equal, and prints
    [needs formatting] and adds exactly 1 when they differ.  When the pipe
    output does not decode as UTF-8 the file gets no verdict: the
    iteration raises [UnicodeDecodeError] after the prefix. *)
Theorem verdict_follows_comparison
  (name : str) (status : Z) (w : World) (content : bytes) (text : str) :
  lookup (disk_at w (clock w)) name = Some (Regular content) ->
  preferred_encoding content = Some text ->
  let original := universal_newlines text in
  (forall formatted,
     formatted_at w (S (clock w)) name = Some formatted ->
     (original = formatted ->
        fst (loop_body name status w) = Returned status /\
        stdout (snd (loop_body name status w)) =
          stdout w ++ name ++ lit ": " ++ lit "OK" ++ [LF; LF]) /\
     (original <> formatted ->
        fst (loop_body name status w) = Returned (status + 1)%Z /\
        stdout (snd (loop_body name status w)) =
          stdout w ++ name ++ lit ": " ++ lit "needs formatting"
            ++ [LF; LF])) /\
  (formatted_at w (S (clock w)) name = None ->
     fst (loop_body name status w) = Raised UnicodeDecodeError /\
     stdout (snd (loop_body name status w)) = stdout w ++ name ++ lit ": ").
Proof.
intros Hfile Htext original.
rewrite loop_body_eq, Hfile, Htext. split.
- intros formatted Hfmt. rewrite Hfmt. cbv zeta. fold original.
  split; intros H.
  + apply str_eqb_eq in H. rewrite H. cbn [fst snd].
    rewrite Z.add_0_r, stdout_after, written_iteration. now split.
  + destruct (str_eqb original formatted) eqn:E.
    * apply str_eqb_eq in E. contradiction.
    * cbn [fst snd]. rewrite stdout_after, written_iteration. now split.
- intros Hfmt. rewrite Hfmt. cbn [fst snd]. split; [reflexivity|].
  rewrite stdout_after, flat_map_app.
  unfold started, Checker.piped. cbn [flat_map written app].
  rewrite flat_map_app, written_child_events. cbn [flat_map written app].
  now rewrite !app_nil_r.
Qed.

(** When every listed entry is read and compared, what the run adds to
    standard output is the reports of the entries, two lines each. *)
Lemma run_reports (stdin : str) (w : World) (vs : list bool) :
  conformance w (clock w) (files stdin) = Some vs ->
  stdout (snd (main stdin w)) = stdout w ++ reports (files stdin) vs /\
  readlines (reports (files stdin) vs) =
    flat_map (fun nv => report_lines (fst nv) (snd nv))
             (combine (files stdin) vs) /\
  List.length (readlines (reports (files stdin) vs)) =
    2 * List.length (files stdin).
Proof.
intros H.
rewrite (main_conformance clang_format preferred_encoding sed_option stdin w vs H).
cbn [snd].
rewrite stdout_after, written_iterations.
pose proof (readlines_reports (files stdin) vs (files_no_LF stdin)) as E.
repeat split; [exact E|]. rewrite E.
pose proof (combine_lengths clang_format preferred_encoding sed_option _ _ _ _ H) as L.
assert (G : forall l : list (str * bool),
  List.length (flat_map (fun nv => report_lines (fst nv) (snd nv)) l)
  = 2 * List.length l).
{ induction l as [|x l IH]; simpl in *; lia. }
rewrite G, length_combine. lia.
Qed.

(** A run on paths that sed takes for file operands changes no file:
    every event of the run is a write to standard output, an [open] for
    reading, the start of a child, or the read of its operand by the first
    child. *)
Lemma run_on_operands_leaves_files (stdin : str) (w : World) :
  Forall (fun name => is_option name = false) (files stdin) ->
  exists n evs,
    snd (main stdin w) = after w n evs /\ Forall leaves_files evs.
Proof.
intros Hn. unfold Checker.main, bind.
destruct (for_each_world clang_format preferred_encoding sed_option
            (files stdin) 0%Z w) as (n & evs & H & Hevs).
destruct (Checker.for_each _ _ _ _ _ _) as [[s1|e] w1]; cbn [snd] in *;
  subst w1; exists n, evs; split; auto.
Qed.

(** C9.  In every iteration the prefix [<path>: ] is printed before the
    file is opened; so a run that reaches a path that cannot be opened
    ends with the reports of the paths before it followed by the prefix
    of the failing path, and with the file access error. *)
Theorem prefix_is_printed_before_open
  (stdin : str) (w : World)
  (pre post : list str) (bad : str) (vs : list bool) (e : Exn) :
  (forall name status w0, exists n evs,
     snd (loop_body name status w0) =
       after w0 n
         (EvPrint (name ++ lit ": ") :: EvOpen name "r" :: evs)) /\
  (files stdin = pre ++ bad :: post ->
   conformance w (clock w) pre = Some vs ->
   access_error
     (lookup (disk_at w (2 * List.length pre + clock w)) bad) = Some e ->
   fst (main stdin w) = Raised e /\
   stdout (snd (main stdin w)) =
     stdout w ++ reports pre vs ++ bad ++ lit ": ").
Proof.
split.
- intros name status w0.
  destruct (loop_body_world clang_format preferred_encoding sed_option name status w0)
    as (n & evs & H & _).
  exists n, evs. exact H.
- intros Hfiles Hpre Hbad. unfold Checker.main, bind. rewrite Hfiles.
  rewrite (for_each_access_error clang_format preferred_encoding sed_option
            pre post bad e 0%Z w vs Hpre Hbad).
  cbn [fst snd]. split; [reflexivity|].
  rewrite stdout_after, flat_map_app, written_iterations.
  unfold started. cbn [flat_map written]. now rewrite !app_nil_r.
Qed.

(** C5, amended.  A run that reaches a path that cannot be opened (it
    names nothing, or a file without read permission, or a directory)
    stops there with the file access error: nothing is printed after the
    prefix of that path, [sys.exit] is never called, and the process exits
    with code 1, the code of any uncaught exception.  A line of white
    space is the empty path, which names nothing on any disk. *)
Theorem unopenable_path_aborts_run
  (stdin : str) (w : World)
  (pre post : list str) (bad : str) (vs : list bool) (e : Exn) :
  files stdin = pre ++ bad :: post ->
  conformance w (clock w) pre = Some vs ->
  access_error
    (lookup (disk_at w (2 * List.length pre + clock w)) bad) = Some e ->
  main stdin w =
    (Raised e,
     after w (1 + 2 * List.length pre) (iterations pre vs ++ started bad)) /\
  (e = FileNotFoundError \/ e = PermissionError \/ e = IsADirectoryError) /\
  (bad = [] -> e = FileNotFoundError) /\
  (forall line d,
     Forall (fun c => isspace c = true) line ->
     strip line = [] /\
     access_error (lookup d (strip line)) = Some FileNotFoundError) /\
  exit_code (fst (main stdin w)) = 1%Z.
Proof.
intros Hfiles Hpre Hbad.
assert (Hmain : main stdin w =
  (Raised e,
   after w (1 + 2 * List.length pre) (iterations pre vs ++ started bad))).
{ unfold Checker.main, bind. rewrite Hfiles.
  now rewrite (for_each_access_error clang_format preferred_encoding sed_option
            pre post bad e 0%Z w vs Hpre Hbad). }
rewrite Hmain. split; [reflexivity|].
assert (He : e = FileNotFoundError \/ e = PermissionError
             \/ e = IsADirectoryError).
{ destruct (lookup _ bad) as [[c| |]|]; simpl in Hbad;
    try discriminate; injection Hbad as <-; auto. }
split; [exact He|]. split; [|split].
- intros ->. simpl in Hbad. congruence.
- intros line d Hline. rewrite (strip_whitespace line Hline). now split.
- cbn [fst]. destruct He as [->|[->| ->]]; reflexivity.
Qed.

(** C10, amended.  For a path that sed takes for a file operand (one
    that does not begin with [-]), the text [formatted] comes from a read
    of its own: the first [sed] is started with the path as operand and
    opens the file after the interpreter has read it, so the verdict
    compares the content found at one access with the pipe output for the
    content found at the next. *)
Theorem formatted_comes_from_second_read
  (name : str) (status : Z) (w : World)
  (first second : bytes) (text formatted : str) :
  is_option name = false ->
  lookup (disk_at w (clock w)) name = Some (Regular first) ->
  lookup (disk_at w (S (clock w))) name = Some (Regular second) ->
  preferred_encoding first = Some text ->
  utf8_decode (pipeline clang_format second) = Some formatted ->
  let v := str_eqb (universal_newlines text) formatted in
  fst (loop_body name status w) = Returned (status + (if v then 0 else 1))%Z /\
  clock (snd (loop_body name status w)) = 2 + clock w /\
  trace (snd (loop_body name status w)) =
    trace w ++
    [EvPrint (name ++ lit ": ");
     EvOpen name "r";
     EvPopen [lit "sed"; lit p1_script; name];
     EvChildRead name;
     EvPopen [lit "clang-format-mp-7.0"; lit "-style=file"];
     EvPopen [lit "sed"; lit p3_script];
     EvPrint (verdict v ++ [LF; LF])].
Proof.
intros Hopt H1 H2 Ht Hf v.
rewrite loop_body_eq, H1, Ht.
unfold Checker.formatted_at, Checker.pipe_output, p1_output.
rewrite Hopt, H2. unfold pipeline in Hf. rewrite Hf.
cbv zeta. fold v.
unfold Checker.iteration, Checker.piped, child_events. rewrite Hopt.
repeat split.
Qed.

End Run.

(** *** The two substitutions *)

Lemma gsub_match (re : regex) (repl : bytes) (c : byte) (t : bytes) (n : nat) :
  match_here re (c :: t) = Some (S n) ->
  gsub re repl (c :: t) = repl ++ gsub re repl (skipn n t).
Proof. intros H. rewrite gsub_equation_2, H. now simp gsub. Qed.

Lemma gsub_copy (re : regex) (repl : bytes) (c : byte) (t : bytes) :
  match_here re (c :: t) = None ->
  gsub re repl (c :: t) = c :: gsub re repl t.
Proof. intros H. rewrite gsub_equation_2, H. now simp gsub. Qed.

(** A sequence of plain characters matches exactly where it is a prefix. *)
Lemma match_chars_prefix (p rest : bytes) :
  match_here (map Chr p) (p ++ rest) = Some (List.length p).
Proof.
induction p as [|x p IH]; simpl; [reflexivity|].
rewrite (byte_dec_lb eq_refl), IH. reflexivity.
Qed.

Lemma match_chars_some (p s : bytes) (n : nat) :
  match_here (map Chr p) s = Some n ->
  n = List.length p /\ exists rest, s = p ++ rest.
Proof.
revert s n; induction p as [|x p IH]; intros s n; simpl.
- intros H; injection H as <-. split; [reflexivity|now exists s].
- destruct s as [|y s]; [discriminate|].
  destruct (Byte.eqb x y) eqn:E; [|discriminate].
  apply byte_dec_bl in E; subst y.
  destruct (match_here (map Chr p) s) as [m|] eqn:Em; [|discriminate].
  simpl; intros H; injection H as <-.
  destruct (IH _ _ Em) as [-> [rest ->]]. split; [reflexivity|now exists rest].
Qed.

Lemma match_chr_unfold (c : byte) (re : regex) (y : byte) (s : bytes) :
  match_here (Chr c :: re) (y :: s) =
  if Byte.eqb c y then option_map S (match_here re s) else None.
Proof. reflexivity. Qed.

Lemma match_chr_nil (c : byte) (re : regex) :
  match_here (Chr c :: re) [] = None.
Proof. reflexivity. Qed.

Lemma match_star_unfold (c : byte) (re : regex) (s : bytes) :
  match_here (Star c :: re) s =
  match s with
  | y :: s' =>
      if Byte.eqb c y then
        match match_here (Star c :: re) s' with
        | Some n => Some (S n)
        | None => match_here re s
        end
      else match_here re s
  | [] => match_here re s
  end.
Proof. destruct s; reflexivity. Qed.

(** Where [c*] followed by plain characters matches, the text starts with
    some [c]s followed by those characters. *)
Lemma match_star_chars_some (c : byte) (p s : bytes) (n : nat) :
  match_here (Star c :: map Chr p) s = Some n ->
  exists j rest, s = repeat c j ++ p ++ rest.
Proof.
revert n; induction s as [|y s IH]; intros n; rewrite match_star_unfold.
- intros H. apply match_chars_some in H as [_ [rest H]].
  now exists 0, rest.
- destruct (Byte.eqb c y) eqn:E.
  + apply byte_dec_bl in E; subst y.
    destruct (match_here (Star c :: map Chr p) s) as [m|] eqn:Em.
    * intros _. destruct (IH _ eq_refl) as (j & rest & ->).
      now exists (S j), rest.
    * intros H. apply match_chars_some in H as [_ [rest H]].
      now exists 0, rest.
  + intros H. apply match_chars_some in H as [_ [rest H]].
    now exists 0, rest.
Qed.

(** What a substitution writes comes from its input or its replacement. *)
Lemma gsub_incl (re : regex) (repl s : bytes) (x : byte) :
  In x (gsub re repl s) -> In x repl \/ In x s.
Proof.
funelim (gsub re repl s); simp gsub; try rewrite Heq; simp gsub.
- intros [].
- simpl. intros [->|Hx]; [right; now left|].
  destruct (H _ Hx); [now left | right; now right].
- rewrite in_app_iff. intros [Hx|Hx]; [now left|].
  destruct (H _ Hx) as [Hr|Hs]; [now left|].
  right; right. rewrite <- (firstn_skipn n t). apply in_or_app. now right.
- simpl. intros [->|Hx]; [right; now left|].
  destruct (H _ Hx); [now left | right; now right].
Qed.

Section RoundTrip.

(** The marker [p] starts with [hash], which is neither a slash nor a
    space, and contains no slash; the first script puts two slashes in
    front of it and the second takes two slashes and any spaces away. *)
Variable p : bytes.
Variable hash : byte.
Variable p' : bytes.
Hypothesis p_starts : p = hash :: p'.
Hypothesis hash_not_slash : hash <> SLASH.
Hypothesis hash_not_space : hash <> x20.
Hypothesis no_slash : ~ In SLASH p.

Local Abbreviation mask := (gsub (map Chr p) (SLASH :: SLASH :: p)).
Local Abbreviation unmask :=
  (gsub (Chr SLASH :: Chr SLASH :: Star x20 :: map Chr p) p).

Lemma mask_at_marker (rest : bytes) :
  mask (p ++ rest) = SLASH :: SLASH :: p ++ mask rest.
Proof.
assert (E : p ++ rest = hash :: (p' ++ rest)) by now rewrite p_starts.
rewrite E. rewrite (gsub_match _ _ _ _ (List.length p')).
- rewrite skipn_app, skipn_all, Nat.sub_diag. reflexivity.
- rewrite <- E, match_chars_prefix, p_starts. reflexivity.
Qed.

Lemma mask_elsewhere (c : byte) (t : bytes) :
  match_here (map Chr p) (c :: t) = None -> mask (c :: t) = c :: mask t.
Proof. apply gsub_copy. Qed.

Lemma match_marker_cases (s : bytes) :
  (exists rest, s = p ++ rest) \/ match_here (map Chr p) s = None.
Proof.
destruct (match_here (map Chr p) s) as [n|] eqn:E; [left|now right].
now apply match_chars_some in E as [_ H].
Qed.

(** A slash-free text at the head of the masked text was at the head of
    the text. *)
Lemma mask_prefix_reflects (q : bytes) :
  ~ In SLASH q ->
  forall t rest, mask t = q ++ rest -> exists rest', t = q ++ rest'.
Proof.
induction q as [|a q IH]; intros Hq t rest H.
- now exists t.
- destruct (match_marker_cases t) as [[r ->]|Hn].
  + rewrite mask_at_marker in H. injection H as <- _.
    exfalso; apply Hq; now left.
  + destruct t as [|d t]; [discriminate|].
    rewrite (mask_elsewhere _ _ Hn) in H. injection H as -> H.
    destruct (IH (fun Hi => Hq (or_intror Hi)) _ _ H) as [rest' ->].
    now exists rest'.
Qed.

(** In the masked text the marker never follows a run of spaces. *)
Lemma mask_no_bare_marker (j : nat) :
  forall t rest, mask t <> repeat x20 j ++ p ++ rest.
Proof.
induction j as [|j IH]; intros t rest H.
- cbn [repeat app] in H.
  destruct (match_marker_cases t) as [[r ->]|Hn].
  + rewrite mask_at_marker, p_starts in H. injection H as H _.
    now apply hash_not_slash.
  + destruct (mask_prefix_reflects p no_slash _ _ H) as [rest' ->].
    rewrite match_chars_prefix in Hn. discriminate.
- cbn [repeat app] in H.
  destruct (match_marker_cases t) as [[r ->]|Hn].
  + rewrite mask_at_marker in H. discriminate.
  + destruct t as [|d t]; [discriminate|].
    rewrite (mask_elsewhere _ _ Hn) in H. injection H as _ H.
    exact (IH _ _ H).
Qed.

Lemma unmask_at_masked_marker (rest : bytes) :
  unmask (SLASH :: SLASH :: p ++ rest) = p ++ unmask rest.
Proof.
rewrite (gsub_match _ _ _ _ (S (List.length p))).
- cbn [skipn]. rewrite skipn_app, skipn_all, Nat.sub_diag. reflexivity.
- rewrite !match_chr_unfold, !(byte_dec_lb eq_refl).
  assert (E : p ++ rest = hash :: (p' ++ rest)) by now rewrite p_starts.
  rewrite match_star_unfold, E.
  destruct (Byte.eqb x20 hash) eqn:Eh.
  { apply byte_dec_bl in Eh. now elim hash_not_space. }
  rewrite <- E, match_chars_prefix. reflexivity.
Qed.

Lemma unmask_elsewhere (c : byte) (t : bytes) :
  match_here (map Chr p) (c :: t) = None ->
  unmask (c :: mask t) = c :: unmask (mask t).
Proof.
intros Hn. apply gsub_copy. rewrite match_chr_unfold.
destruct (Byte.eqb SLASH c) eqn:Ec; [|reflexivity].
destruct (mask t) as [|d u] eqn:Eu; [reflexivity|].
rewrite match_chr_unfold.
destruct (Byte.eqb SLASH d) eqn:Ed; [|reflexivity].
destruct (match_here (Star x20 :: map Chr p) u) as [n|] eqn:En;
  [|reflexivity].
exfalso. apply byte_dec_bl in Ed; subst d.
apply match_star_chars_some in En as (j & rest & ->).
destruct (match_marker_cases t) as [[r ->]|Ht].
- rewrite mask_at_marker in Eu. injection Eu as Eu.
  destruct j; cbn [repeat app] in Eu.
  + rewrite p_starts in Eu. injection Eu as Eu _.
    now apply hash_not_slash.
  + discriminate.
- destruct t as [|d t]; [discriminate|].
  rewrite (mask_elsewhere _ _ Ht) in Eu. injection Eu as _ Eu.
  exact (mask_no_bare_marker _ _ _ Eu).
Qed.

(** Unmasking the masked text gives the text back. *)
Lemma unmask_mask (s : bytes) : unmask (mask s) = s.
Proof.
remember (List.length s) as n eqn:En. revert s En.
induction n as [n IH] using lt_wf_ind. intros s En.
destruct s as [|c t]; [reflexivity|].
destruct (match_marker_cases (c :: t)) as [[r E]|Hn].
- rewrite E, mask_at_marker, unmask_at_masked_marker.
  f_equal. apply (IH (List.length r)); [|reflexivity].
  subst n. rewrite E, length_app, p_starts. simpl. lia.
- rewrite (mask_elsewhere _ _ Hn), (unmask_elsewhere _ _ Hn).
  f_equal. apply (IH (List.length t)); [|reflexivity].
  subst n. simpl. lia.
Qed.

End RoundTrip.

(** *** Lines *)

Lemma split_lines_cons (s : bytes) : exists l ls, split_lines s = l :: ls.
Proof.
destruct s as [|c t]; simpl; [now exists [], []|].
destruct (Byte.eqb c NL); [now eexists _, _|].
destruct (split_lines t); now eexists _, _.
Qed.

Lemma join_lines_cons (l l' : bytes) (ls : list bytes) :
  join_lines (l :: l' :: ls) = l ++ NL :: join_lines (l' :: ls).
Proof. reflexivity. Qed.

Lemma join_split_lines (s : bytes) : join_lines (split_lines s) = s.
Proof.
induction s as [|c t IH]; simpl; [reflexivity|].
destruct (split_lines_cons t) as (l & ls & E). rewrite E in *.
destruct (Byte.eqb c NL) eqn:Ec.
- apply byte_dec_bl in Ec; subst c.
  rewrite join_lines_cons, IH. reflexivity.
- rewrite <- IH. destruct ls; reflexivity.
Qed.

Lemma split_lines_no_NL (s : bytes) :
  Forall (fun l => ~ In NL l) (split_lines s).
Proof.
induction s as [|c t IH]; simpl.
- constructor; [tauto|constructor].
- destruct (Byte.eqb c NL) eqn:Ec.
  + constructor; [tauto|exact IH].
  + destruct (split_lines t) as [|l ls].
    * constructor; [|constructor]. intros [->|[]]. 
      now rewrite (byte_dec_lb eq_refl) in Ec.
    * inversion IH as [|? ? Hl Hls]; subst. constructor; [|exact Hls].
      intros [->|H]; [|tauto]. now rewrite (byte_dec_lb eq_refl) in Ec.
Qed.

Lemma split_lines_line (l rest : bytes) :
  ~ In NL l -> split_lines (l ++ NL :: rest) = l :: split_lines rest.
Proof.
induction l as [|c l IH]; intros H; simpl.
- reflexivity.
- destruct (Byte.eqb c NL) eqn:Ec.
  + apply byte_dec_bl in Ec. exfalso; apply H; now left.
  + rewrite IH; [reflexivity|]. intros Hl; apply H; now right.
Qed.

Lemma split_lines_last (l : bytes) : ~ In NL l -> split_lines l = [l].
Proof.
induction l as [|c l IH]; intros H; simpl; [reflexivity|].
destruct (Byte.eqb c NL) eqn:Ec.
- apply byte_dec_bl in Ec. exfalso; apply H; now left.
- rewrite IH; [reflexivity|]. intros Hl; apply H; now right.
Qed.

Lemma split_join_lines (l : bytes) (ls : list bytes) :
  Forall (fun l => ~ In NL l) (l :: ls) ->
  split_lines (join_lines (l :: ls)) = l :: ls.
Proof.
revert l; induction ls as [|l' ls IH]; intros l H;
  inversion H as [|? ? Hl Hls]; subst.
- simpl. now apply split_lines_last.
- rewrite join_lines_cons, split_lines_line by exact Hl.
  now rewrite IH.
Qed.

(** Two substitutions of which the second undoes the first on every
    pattern space undo each other on every input. *)
Lemma sed_s_round_trip (re re' : regex) (repl repl' : bytes) :
  ~ In NL repl ->
  (forall l, gsub re' repl' (gsub re repl l) = l) ->
  forall input, sed_s re' repl' (sed_s re repl input) = input.
Proof.
intros Hrepl Hinv input. unfold sed_s.
destruct (split_lines_cons input) as (l & ls & E).
pose proof (split_lines_no_NL input) as Hno. rewrite E in *.
cbn [map]. rewrite split_join_lines.
- change (gsub re repl l :: map (gsub re repl) ls)
    with (map (gsub re repl) (l :: ls)).
  rewrite map_map.
  rewrite (map_ext _ (fun x => x)) by apply Hinv.
  now rewrite map_id, <- E, join_split_lines.
- change (gsub re repl l :: map (gsub re repl) ls)
    with (map (gsub re repl) (l :: ls)).
  apply Forall_map. eapply Forall_impl; [|exact Hno].
  intros x Hx Hin. destruct (gsub_incl _ _ _ _ Hin); contradiction.
Qed.

(** The two scripts of the pipeline, read. *)
Lemma p1_script_parsed :
  parse_script p1_script =
  Some (map Chr (blit "#pragma omp"), SLASH :: SLASH :: blit "#pragma omp").
Proof. reflexivity. Qed.

Lemma p3_script_parsed :
  parse_script p3_script =
  Some (Chr SLASH :: Chr SLASH :: Star x20 :: map Chr (blit "#pragma omp"),
        blit "#pragma omp").
Proof. reflexivity. Qed.

(** The second [sed] undoes the first. *)
Lemma unmask_after_mask (input : bytes) :
  sed p3_script (sed p1_script input) = input.
Proof.
unfold sed. rewrite p1_script_parsed, p3_script_parsed.
apply sed_s_round_trip.
- vm_compute. intros H.
  repeat (destruct H as [H|H]; [discriminate|]). exact H.
- apply (unmask_mask (blit "#pragma omp") x23 (blit "pragma omp")).
  + reflexivity.
  + discriminate.
  + discriminate.
  + vm_compute. intros H.
    repeat (destruct H as [H|H]; [discriminate|]). exact H.
Qed.

(** *** Decoding *)

Lemma continuation_some (n c : N) :
  continuation n = Some c -> (128 <= n < 192 /\ c = n - 128)%N.
Proof.
unfold continuation.
destruct (N.leb_spec 128 n) as [L|L]; destruct (N.ltb_spec n 192) as [U|U];
  simpl; try discriminate.
intros E; injection E as <-. lia.
Qed.

(** The first code point of a decoded text comes from one to four bytes
    at the head of the input, in exactly one of the four forms. *)
Lemma utf8_decode_N_cons (bs : list N) (cp : N) (t : str) :
  utf8_decode_N bs = Some (cp :: t) ->
  (exists r, bs = cp :: r /\ (cp < 128)%N /\ utf8_decode_N r = Some t)
  \/ (exists n0 n1 r, bs = n0 :: n1 :: r /\
        (194 <= n0 < 224 /\ 128 <= n1 < 192)%N /\
        cp = ((n0 - 192) * 64 + (n1 - 128))%N /\
        utf8_decode_N r = Some t)
  \/ (exists n0 n1 n2 r, bs = n0 :: n1 :: n2 :: r /\
        (224 <= n0 < 240 /\ 128 <= n1 < 192 /\ 128 <= n2 < 192)%N /\
        cp = ((n0 - 224) * 4096 + (n1 - 128) * 64 + (n2 - 128))%N /\
        (2048 <= cp)%N /\
        utf8_decode_N r = Some t)
  \/ (exists n0 n1 n2 n3 r, bs = n0 :: n1 :: n2 :: n3 :: r /\
        (240 <= n0 < 245 /\ 128 <= n1 < 192 /\ 128 <= n2 < 192
         /\ 128 <= n3 < 192)%N /\
        cp = ((n0 - 240) * 262144 + (n1 - 128) * 4096 + (n2 - 128) * 64
              + (n3 - 128))%N /\
        (65536 <= cp)%N /\
        utf8_decode_N r = Some t).
Proof.
destruct bs as [|n0 r0]; [discriminate|].
cbn [utf8_decode_N].
destruct (N.ltb_spec n0 128) as [L1|L1].
{ destruct (utf8_decode_N r0) as [t'|] eqn:Er; [|discriminate].
  simpl. intros H; injection H as <- <-. left. now exists r0. }
destruct (N.ltb_spec n0 194) as [L2|L2]; [discriminate|].
destruct (N.ltb_spec n0 224) as [L3|L3].
{ destruct r0 as [|n1 r1]; [discriminate|].
  destruct (continuation n1) as [c1|] eqn:E1; [|discriminate].
  apply continuation_some in E1 as [B1 ->].
  destruct (utf8_decode_N r1) as [t'|] eqn:Er; [|discriminate].
  simpl. intros H; injection H as <- <-.
  right; left. exists n0, n1, r1. repeat split; try lia; exact Er. }
destruct (N.ltb_spec n0 240) as [L4|L4].
{ destruct r0 as [|n1 [|n2 r2]]; try discriminate.
  destruct (continuation n1) as [c1|] eqn:E1; [|discriminate].
  destruct (continuation n2) as [c2|] eqn:E2; [|discriminate].
  apply continuation_some in E1 as [B1 ->].
  apply continuation_some in E2 as [B2 ->].
  cbv zeta.
  destruct (N.leb_spec 2048
              ((n0 - 224) * 4096 + (n1 - 128) * 64 + (n2 - 128))) as [G|G];
    [|discriminate].
  destruct (negb _); [|discriminate]. cbn [andb].
  destruct (utf8_decode_N r2) as [t'|] eqn:Er; [|discriminate].
  simpl. intros H; injection H as <- <-.
  right; right; left. exists n0, n1, n2, r2. repeat split; try lia; exact Er. }
destruct (N.ltb_spec n0 245) as [L5|L5]; [|discriminate].
destruct r0 as [|n1 [|n2 [|n3 r3]]]; try discriminate.
destruct (continuation n1) as [c1|] eqn:E1; [|discriminate].
destruct (continuation n2) as [c2|] eqn:E2; [|discriminate].
destruct (continuation n3) as [c3|] eqn:E3; [|discriminate].
apply continuation_some in E1 as [B1 ->].
apply continuation_some in E2 as [B2 ->].
apply continuation_some in E3 as [B3 ->].
cbv zeta.
destruct (N.leb_spec 65536
            ((n0 - 240) * 262144 + (n1 - 128) * 4096 + (n2 - 128) * 64
             + (n3 - 128))) as [G|G]; [|discriminate].
destruct (_ <=? 1114111)%N; [|discriminate]. cbn [andb].
destruct (utf8_decode_N r3) as [t'|] eqn:Er; [|discriminate].
simpl. intros H; injection H as <- <-.
right; right; right. exists n0, n1, n2, n3, r3. repeat split; try lia; exact Er.
Qed.

Lemma utf8_decode_N_nil (bs : list N) : utf8_decode_N bs = Some [] -> bs = [].
Proof.
destruct bs as [|n0 r0]; [reflexivity|]. cbn [utf8_decode_N].
repeat match goal with
| |- context [if ?b then _ else _] => destruct b
| |- context [match ?r with [] => _ | _ :: _ => _ end] => destruct r
| |- context [match continuation ?n with Some _ => _ | None => _ end] =>
    destruct (continuation n)
| |- context [option_map _ ?o] => destruct o; simpl
end; discriminate.
Qed.

(** Strict decoding has one preimage at most: two byte strings that
    decode to the same text are the same. *)
Lemma utf8_decode_N_inj (t : str) :
  forall a b, utf8_decode_N a = Some t -> utf8_decode_N b = Some t -> a = b.
Proof.
induction t as [|cp t IH]; intros a b Ha Hb.
- apply utf8_decode_N_nil in Ha, Hb. congruence.
- apply utf8_decode_N_cons in Ha, Hb.
  destruct Ha as [(r & -> & A1 & A2)
                 |[(n0 & n1 & r & -> & A1 & A2 & A3)
                 |[(n0 & n1 & n2 & r & -> & A1 & A2 & A3 & A4)
                 |(n0 & n1 & n2 & n3 & r & -> & A1 & A2 & A3 & A4)]]];
  destruct Hb as [(r' & -> & B1 & B2)
                 |[(m0 & m1 & r' & -> & B1 & B2 & B3)
                 |[(m0 & m1 & m2 & r' & -> & B1 & B2 & B3 & B4)
                 |(m0 & m1 & m2 & m3 & r' & -> & B1 & B2 & B3 & B4)]]];
  try (exfalso; lia).
  + f_equal. now apply IH.
  + assert (n0 = m0 /\ n1 = m1) as [-> ->] by lia.
    do 2 f_equal. now apply IH.
  + assert (n0 = m0 /\ n1 = m1 /\ n2 = m2) as (-> & -> & ->) by lia.
    do 3 f_equal. now apply IH.
  + assert (n0 = m0 /\ n1 = m1 /\ n2 = m2 /\ n3 = m3)
      as (-> & -> & -> & ->) by lia.
    do 4 f_equal. now apply IH.
Qed.

(** A carriage return in the decoded text is a byte 13 of the input. *)
Lemma utf8_decode_N_CR (t : str) :
  forall bs, utf8_decode_N bs = Some t -> In CR t -> In CR bs.
Proof.
induction t as [|cp t IH]; intros bs Hbs Hin; [destruct Hin|].
apply utf8_decode_N_cons in Hbs.
destruct Hin as [->|Hin].
- destruct Hbs as [(r & -> & A1 & A2)
                  |[(n0 & n1 & r & -> & A1 & A2 & A3)
                  |[(n0 & n1 & n2 & r & -> & A1 & A2 & A3 & A4)
                  |(n0 & n1 & n2 & n3 & r & -> & A1 & A2 & A3 & A4)]]];
    unfold CR in *; try (exfalso; lia).
  now left.
- destruct Hbs as [(r & -> & A1 & A2)
                  |[(n0 & n1 & r & -> & A1 & A2 & A3)
                  |[(n0 & n1 & n2 & r & -> & A1 & A2 & A3 & A4)
                  |(n0 & n1 & n2 & n3 & r & -> & A1 & A2 & A3 & A4)]]];
    simpl; auto 7.
Qed.

Lemma to_N_inj (x y : byte) : Byte.to_N x = Byte.to_N y -> x = y.
Proof.
intros H. pose proof (Byte.of_to_N x) as Hx. rewrite H in Hx.
rewrite Byte.of_to_N in Hx. now injection Hx.
Qed.

Lemma map_to_N_inj (a b : bytes) :
  map Byte.to_N a = map Byte.to_N b -> a = b.
Proof.
revert b; induction a as [|x a IH]; intros [|y b]; simpl; try discriminate.
- reflexivity.
- intros H; injection H as Hx Hab. f_equal; [now apply to_N_inj|auto].
Qed.

Lemma utf8_decode_inj (a b : bytes) (t : str) :
  utf8_decode a = Some t -> utf8_decode b = Some t -> a = b.
Proof.
unfold utf8_decode. intros Ha Hb. apply map_to_N_inj.
exact (utf8_decode_N_inj t _ _ Ha Hb).
Qed.

Lemma utf8_decode_CR (bs : bytes) (t : str) :
  utf8_decode bs = Some t -> In CR t -> In x0d bs.
Proof.
unfold utf8_decode. intros H Hin.
apply (utf8_decode_N_CR t _ H) in Hin.
apply in_map_iff in Hin as (x & Hx & Hin).
change CR with (Byte.to_N x0d) in Hx. apply to_N_inj in Hx. now subst.
Qed.

(** A text without carriage return is its own translation. *)
Lemma universal_newlines_without_CR (t : str) :
  ~ In CR t -> universal_newlines t = t.
Proof.
induction t as [|c t IH]; intros H; simpl; [reflexivity|].
destruct (N.eqb_spec c CR) as [->|Hc]; [exfalso; apply H; now left|].
rewrite IH; [reflexivity|]. intros Hin; apply H; now right.
Qed.

(** On a file operand the pipe output is the pipeline applied to what
    the first [sed] finds when it opens the file. *)
Lemma pipe_output_operand
  (clang_format : bytes -> bytes) (sed_option : str -> bytes * list str)
  (w : World) (t : nat) (name : str) (content : bytes) :
  is_option name = false ->
  lookup (disk_at w t) name = Some (Regular content) ->
  pipe_output clang_format sed_option w t name = pipeline clang_format content.
Proof.
intros Hopt H. unfold pipe_output, p1_output. now rewrite Hopt, H.
Qed.

(** C3, amended.  The comparison is between two texts: the file decoded
    in the locale's encoding with its newlines translated, and the pipe
    output decoded as UTF-8.  When the locale's encoding is UTF-8 and the
    file holds no carriage return, the texts are equal exactly when the
    pipe output and the file are the same bytes; for a path that sed takes
    for a file operand and a file that nobody changes in between, the pipe
    output is the pipeline applied to the file. *)
Theorem comparison_is_bytewise_for_utf8_without_cr
  (clang_format : bytes -> bytes) (preferred_encoding : bytes -> option str)
  (sed_option : str -> bytes * list str)
  (name : str) (status : Z) (w : World) (content : bytes) (v : bool) :
  lookup (disk_at w (clock w)) name = Some (Regular content) ->
  preferred_encoding content = utf8_decode content ->
  ~ In x0d content ->
  conforms_at clang_format preferred_encoding sed_option w (clock w) name
    = Some v ->
  loop_body clang_format preferred_encoding sed_option name status w =
    (Returned (status + (if v then 0 else 1))%Z,
     after w 2 (iteration sed_option name v)) /\
  (v = true <->
   pipe_output clang_format sed_option w (S (clock w)) name = content) /\
  (is_option name = false ->
   lookup (disk_at w (S (clock w))) name = Some (Regular content) ->
   (v = true <-> pipeline clang_format content = content)).
Proof.
intros H1 Henc Hcr Hv.
split; [now apply loop_body_compares|].
assert (G : v = true <->
  pipe_output clang_format sed_option w (S (clock w)) name = content).
{ revert Hv. unfold conforms_at, original_of, formatted_at.
  rewrite H1, Henc.
  destruct (utf8_decode content) as [t|] eqn:Et; [|discriminate].
  cbn [option_map].
  destruct (utf8_decode (pipe_output clang_format sed_option w
                           (S (clock w)) name)) as [f|] eqn:Ef;
    [|discriminate].
  rewrite universal_newlines_without_CR.
  2: { intros Hin. apply Hcr. exact (utf8_decode_CR content t Et Hin). }
  intros Hv; injection Hv as <-. rewrite str_eqb_eq. split.
  - intros <-. exact (utf8_decode_inj _ _ t Ef Et).
  - intros E. rewrite E, Et in Ef. now injection Ef. }
split; [exact G|].
intros Hopt H2.
now rewrite <- (pipe_output_operand clang_format sed_option w _ name content
                  Hopt H2).
Qed.

(* ===================================================================== *)
(** ** Runs on the example project *)
(* ===================================================================== *)

Import Examples.

(** Three paths of which two need formatting: exit code 2. *)
Lemma exit_code_counts_differing_witness :
  conformance tidy utf8_decode gnu_sed (quiet project) 0 (files three_paths)
    = Some [false; true; false] /\
  differing [false; true; false] < 256 /\
  exit_code (fst (main tidy utf8_decode gnu_sed three_paths (quiet project))) = 2%Z.
Proof.
assert (H : conformance tidy utf8_decode gnu_sed (quiet project)
              (clock (quiet project)) (files three_paths)
            = Some [false; true; false]) by (vm_compute; reflexivity).
assert (L : differing [false; true; false] < 256)
  by (unfold differing; simpl; lia).
split; [exact H|]. split; [exact L|].
destruct (exit_code_counts_differing_below_256 tidy utf8_decode gnu_sed
            three_paths (quiet project) [false; true; false] H L)
  as (_ & E & _).
exact E.
Defined.

(** C1 as stated fails at 256 differing entries: the script calls
    [sys.exit(256)] and the process exits with code 0, which is neither
    the number of differing entries nor a sign that every entry
    conforms. *)
Lemma exit_code_wraps_at_256 :
  conformance tidy utf8_decode gnu_sed (quiet project) 0 (files many_paths)
    = Some (repeat false 256) /\
  fst (main tidy utf8_decode gnu_sed many_paths (quiet project))
    = Raised (SystemExit 256) /\
  exit_code (fst (main tidy utf8_decode gnu_sed many_paths (quiet project))) = 0%Z /\
  exit_code (fst (main tidy utf8_decode gnu_sed many_paths (quiet project)))
    <> Z.of_nat (differing (repeat false 256)) /\
  ~ (exit_code (fst (main tidy utf8_decode gnu_sed many_paths (quiet project))) = 0%Z
     <-> Forall (fun v => v = true) (repeat false 256)).
Proof.
assert (E : fst (main tidy utf8_decode gnu_sed many_paths (quiet project))
            = Raised (SystemExit 256)) by (vm_compute; reflexivity).
split; [vm_compute; reflexivity|]. split; [exact E|]. rewrite E.
split; [reflexivity|]. split.
- vm_compute. discriminate.
- intros [H _]. specialize (H eq_refl). inversion H. discriminate.
Qed.

(** A file that is read and differs from its formatted text: the count
    goes up by one. *)
Lemma verdict_follows_comparison_witness :
  lookup (disk_at (quiet project) 0) (lit "b.c") = Some (Regular unformatted) /\
  utf8_decode unformatted = Some (lit "int  x;" ++ [LF]) /\
  formatted_at tidy gnu_sed (quiet project) 1 (lit "b.c")
    = Some (lit "int x;" ++ [LF]) /\
  fst (loop_body tidy utf8_decode gnu_sed (lit "b.c") 0%Z (quiet project))
    = Returned 1%Z /\
  stdout (snd (loop_body tidy utf8_decode gnu_sed (lit "b.c") 0%Z (quiet project)))
    = lit "b.c: needs formatting" ++ [LF; LF].
Proof.
assert (H1 : lookup (disk_at (quiet project) (clock (quiet project)))
               (lit "b.c") = Some (Regular unformatted))
  by (vm_compute; reflexivity).
assert (H2 : utf8_decode unformatted = Some (lit "int  x;" ++ [LF]))
  by (vm_compute; reflexivity).
assert (H3 : formatted_at tidy gnu_sed (quiet project)
               (S (clock (quiet project))) (lit "b.c")
             = Some (lit "int x;" ++ [LF]))
  by (vm_compute; reflexivity).
split; [exact H1|]. split; [exact H2|]. split; [exact H3|].
destruct (verdict_follows_comparison tidy utf8_decode gnu_sed (lit "b.c") 0%Z
            (quiet project) unformatted (lit "int  x;" ++ [LF]) H1 H2)
  as [D _].
destruct (D (lit "int x;" ++ [LF]) H3) as [_ D'].
apply D'. vm_compute. discriminate.
Defined.

(** C3 as stated fails on a file with CR LF line ends that the formatter
    returns as it is: the pipe output and the file are the same bytes, and
    the verdict is [needs formatting]. *)
Lemma byte_identical_crlf_file_needs_formatting :
  pipeline keep crlf = crlf /\
  conforms_at keep utf8_decode gnu_sed (quiet project) 0 (lit "crlf.c") = Some false /\
  fst (loop_body keep utf8_decode gnu_sed (lit "crlf.c") 0%Z (quiet project))
    = Returned 1%Z /\
  stdout (snd (loop_body keep utf8_decode gnu_sed (lit "crlf.c") 0%Z (quiet project)))
    = lit "crlf.c: needs formatting" ++ [LF; LF].
Proof. repeat split; vm_compute; reflexivity. Qed.

(** A UTF-8 file without carriage return whose pipe output is the file. *)
Lemma comparison_is_bytewise_witness :
  lookup (disk_at (quiet project) 0) (lit "a.c") = Some (Regular conforming) /\
  lookup (disk_at (quiet project) 1) (lit "a.c") = Some (Regular conforming) /\
  ~ In x0d conforming /\
  conforms_at tidy utf8_decode gnu_sed (quiet project) 0 (lit "a.c") = Some true /\
  pipeline tidy conforming = conforming.
Proof.
assert (H1 : lookup (disk_at (quiet project) (clock (quiet project)))
               (lit "a.c") = Some (Regular conforming))
  by (vm_compute; reflexivity).
assert (H2 : lookup (disk_at (quiet project) (S (clock (quiet project))))
               (lit "a.c") = Some (Regular conforming))
  by (vm_compute; reflexivity).
assert (H3 : ~ In x0d conforming).
{ vm_compute. intros H.
  repeat (destruct H as [H|H]; [discriminate|]). exact H. }
assert (H4 : conforms_at tidy utf8_decode gnu_sed (quiet project)
               (clock (quiet project)) (lit "a.c") = Some true)
  by (vm_compute; reflexivity).
split; [exact H1|]. split; [exact H2|]. split; [exact H3|].
split; [exact H4|].
destruct (comparison_is_bytewise_for_utf8_without_cr tidy utf8_decode gnu_sed
            (lit "a.c") 0%Z (quiet project) conforming true
            H1 eq_refl H3 H4) as (_ & _ & E).
destruct (E eq_refl H2) as [E' _].
exact (E' eq_refl).
Defined.

(** C4 as stated fails for a directive line that ends with a space: the
    formatter trims the comment that the line has become, and the line
    comes out of the pipeline without its last byte. *)
Lemma directive_line_altered_by_formatter :
  directive_trailing_space = blit "#pragma omp parallel for " ++ [NL] /\
  pipeline tidy directive_trailing_space
    = blit "#pragma omp parallel for" ++ [NL] /\
  pipeline tidy directive_trailing_space <> directive_trailing_space.
Proof.
split; [reflexivity|]. split; [vm_compute; reflexivity|].
vm_compute. discriminate.
Qed.

(** A line of spaces in the list: the run stops at the empty path. *)
Lemma unopenable_path_aborts_run_witness :
  files blank_line_paths = [lit "a.c"] ++ [] :: [lit "b.c"] /\
  conformance tidy utf8_decode gnu_sed (quiet project) 0 [lit "a.c"] = Some [true] /\
  access_error (lookup (disk_at (quiet project) 2) []) = Some FileNotFoundError /\
  fst (main tidy utf8_decode gnu_sed blank_line_paths (quiet project))
    = Raised FileNotFoundError /\
  stdout (snd (main tidy utf8_decode gnu_sed blank_line_paths (quiet project)))
    = lit "a.c: OK" ++ [LF; LF] ++ lit ": " /\
  exit_code (fst (main tidy utf8_decode gnu_sed blank_line_paths (quiet project)))
    = 1%Z.
Proof.
assert (H1 : files blank_line_paths = [lit "a.c"] ++ [] :: [lit "b.c"])
  by (vm_compute; reflexivity).
assert (H2 : conformance tidy utf8_decode gnu_sed (quiet project)
               (clock (quiet project)) [lit "a.c"] = Some [true])
  by (vm_compute; reflexivity).
assert (H3 : access_error
               (lookup (disk_at (quiet project)
                          (2 * List.length [lit "a.c"]
                           + clock (quiet project))) [])
             = Some FileNotFoundError) by reflexivity.
split; [exact H1|]. split; [exact H2|]. split; [exact H3|].
destruct (unopenable_path_aborts_run tidy utf8_decode gnu_sed blank_line_paths
            (quiet project) [lit "a.c"] [lit "b.c"] [] [true]
            FileNotFoundError H1 H2 H3) as (E & _ & _ & _ & C).
rewrite E. split; [reflexivity|]. split; [vm_compute; reflexivity|].
rewrite E in C. exact C.
Defined.

(** C5 as stated fails on the exit code: the run that stops at a missing
    file and the run that finds one file to format both exit with 1. *)
Lemma abort_and_one_differing_file_share_exit_code :
  fst (main tidy utf8_decode gnu_sed (one_per_line [lit "missing.c"]) (quiet project))
    = Raised FileNotFoundError /\
  fst (main tidy utf8_decode gnu_sed (one_per_line [lit "b.c"]) (quiet project))
    = Raised (SystemExit 1) /\
  exit_code
    (fst (main tidy utf8_decode gnu_sed (one_per_line [lit "missing.c"])
            (quiet project))) = 1%Z /\
  exit_code
    (fst (main tidy utf8_decode gnu_sed (one_per_line [lit "b.c"])
            (quiet project))) = 1%Z.
Proof. repeat split; vm_compute; reflexivity. Qed.

(** A file without read permission in the middle of the list: its prefix
    is the last thing printed. *)
Lemma prefix_is_printed_before_open_witness :
  files secret_paths = [lit "a.c"] ++ lit "secret.c" :: [lit "b.c"] /\
  conformance tidy utf8_decode gnu_sed (quiet project) 0 [lit "a.c"] = Some [true] /\
  access_error (lookup (disk_at (quiet project) 2) (lit "secret.c"))
    = Some PermissionError /\
  fst (main tidy utf8_decode gnu_sed secret_paths (quiet project))
    = Raised PermissionError /\
  stdout (snd (main tidy utf8_decode gnu_sed secret_paths (quiet project)))
    = lit "a.c: OK" ++ [LF; LF] ++ lit "secret.c: ".
Proof.
assert (H1 : files secret_paths
             = [lit "a.c"] ++ lit "secret.c" :: [lit "b.c"])
  by (vm_compute; reflexivity).
assert (H2 : conformance tidy utf8_decode gnu_sed (quiet project)
               (clock (quiet project)) [lit "a.c"] = Some [true])
  by (vm_compute; reflexivity).
assert (H3 : access_error
               (lookup (disk_at (quiet project)
                          (2 * List.length [lit "a.c"]
                           + clock (quiet project))) (lit "secret.c"))
             = Some PermissionError) by (vm_compute; reflexivity).
split; [exact H1|]. split; [exact H2|]. split; [exact H3|].
destruct (prefix_is_printed_before_open tidy utf8_decode gnu_sed secret_paths
            (quiet project) [lit "a.c"] [lit "b.c"] (lit "secret.c") [true]
            PermissionError) as [_ P].
destruct (P H1 H2 H3) as [E1 E2].
split; [exact E1|]. rewrite E2. vm_compute. reflexivity.
Defined.

(** A file rewritten between the two reads, well formatted before and
    after: the verdict is [needs formatting]. *)
Lemma formatted_comes_from_second_read_witness :
  is_option (lit "a.c") = false /\
  lookup (disk_at (changing project project') 0) (lit "a.c")
    = Some (Regular conforming) /\
  lookup (disk_at (changing project project') 1) (lit "a.c")
    = Some (Regular conforming') /\
  pipeline tidy conforming = conforming /\
  pipeline tidy conforming' = conforming' /\
  fst (loop_body tidy utf8_decode gnu_sed (lit "a.c") 0%Z (changing project project'))
    = Returned 1%Z.
Proof.
assert (H1 : lookup (disk_at (changing project project')
                       (clock (changing project project'))) (lit "a.c")
             = Some (Regular conforming)) by (vm_compute; reflexivity).
assert (H2 : lookup (disk_at (changing project project')
                       (S (clock (changing project project')))) (lit "a.c")
             = Some (Regular conforming')) by (vm_compute; reflexivity).
assert (H3 : utf8_decode conforming = Some (lit "int x;" ++ [LF]))
  by (vm_compute; reflexivity).
assert (H4 : utf8_decode (pipeline tidy conforming')
             = Some (lit "int y;" ++ [LF])) by (vm_compute; reflexivity).
split; [reflexivity|]. split; [exact H1|]. split; [exact H2|].
split; [vm_compute; reflexivity|]. split; [vm_compute; reflexivity|].
destruct (formatted_comes_from_second_read tidy utf8_decode gnu_sed (lit "a.c") 0%Z
            (changing project project') conforming conforming'
            (lit "int x;" ++ [LF]) (lit "int y;" ++ [LF]) eq_refl H1 H2 H3 H4)
  as (E & _ & _).
exact E.
Defined.

(* ===================================================================== *)
(** ** Further properties of the script *)
(* ===================================================================== *)

Import Notions.

(** *** The list of paths *)

Lemma readlines_last (l : str) :
  ~ In LF l -> l <> [] -> readlines l = [l].
Proof.
induction l as [|c t IH]; intros Hno Hne; [congruence|]. simpl.
destruct (N.eqb_spec c LF) as [->|Hc]; [exfalso; apply Hno; now left|].
destruct t as [|d t]; [reflexivity|].
rewrite IH; [reflexivity| |discriminate].
intros H; apply Hno; now right.
Qed.

Lemma readlines_one_per_line (names : list str) (rest : str) :
  Forall (fun name => ~ In LF name) names ->
  readlines (one_per_line names ++ rest) =
  map (fun name => name ++ [LF]) names ++ readlines rest.
Proof.
induction 1 as [|name names Hn Hns IH]; [reflexivity|].
unfold one_per_line in *. cbn [flat_map map app].
rewrite <- !app_assoc. cbn [app].
rewrite readlines_line by exact Hn. now rewrite IH.
Qed.

Lemma strip_final_LF (l : str) : strip (l ++ [LF]) = strip l.
Proof. unfold strip. now rewrite rstrip_final_LF. Qed.

(** The list of paths, from the lines of standard input: every line that
    a newline ends, and the last line when it is not empty. *)
Lemma files_lines (names : list str) (last : str) :
  Forall (fun name => ~ In LF name) names ->
  ~ In LF last ->
  files (one_per_line names ++ last) =
  map strip names ++ match last with [] => [] | _ => [strip last] end.
Proof.
intros Hn Hl. unfold files. rewrite readlines_one_per_line by exact Hn.
rewrite map_app, map_map. f_equal.
- apply map_ext. intros name. apply strip_final_LF.
- destruct last as [|c t]; [reflexivity|].
  rewrite readlines_last; [reflexivity | exact Hl | discriminate].
Qed.

(** Every text is a sequence of lines that a newline ends, followed by a
    last line without newline. *)
Lemma stdin_lines (stdin : str) :
  exists names last,
    stdin = one_per_line names ++ last /\
    Forall (fun name => ~ In LF name) names /\
    ~ In LF last.
Proof.
induction stdin as [|c t (names & last & E & Hn & Hl)].
- exists [], []. repeat split; [constructor | intros []].
- destruct (N.eq_dec c LF) as [->|Hc].
  + exists ([] :: names), last. subst t. repeat split; [|exact Hl].
    constructor; [intros [] | exact Hn].
  + destruct names as [|name names].
    * exists [], (c :: last). subst t. repeat split; [constructor|].
      intros [H|H]; [congruence | exact (Hl H)].
    * exists ((c :: name) :: names), last. subst t.
      inversion Hn as [|? ? Hname Hnames]; subst.
      repeat split; [|exact Hl].
      constructor; [|exact Hnames].
      intros [H|H]; [congruence | exact (Hname H)].
Qed.

(** X1.  A standard input with one path per line gives the paths in
    order, each one stripped; a blank line gives the empty path, and a
    last line without newline counts as a line. *)
Theorem files_of_one_path_per_line (names : list str) (last : str) :
  Forall (fun name => ~ In LF name) names ->
  ~ In LF last ->
  files (one_per_line names) = map strip names /\
  (last <> [] ->
   files (one_per_line names ++ last) = map strip names ++ [strip last]).
Proof.
intros Hn Hl. unfold files. split.
- rewrite <- (app_nil_r (one_per_line names)).
  rewrite readlines_one_per_line by exact Hn.
  cbn [readlines]. rewrite app_nil_r, map_map.
  apply map_ext. intros name. apply strip_final_LF.
- intros Hne. rewrite readlines_one_per_line by exact Hn.
  rewrite readlines_last by assumption.
  rewrite map_app, map_map. cbn [map]. f_equal.
  apply map_ext. intros name. apply strip_final_LF.
Qed.

Lemma lstrip_split (s : str) : exists pre, s = pre ++ lstrip s.
Proof.
induction s as [|c t [pre IH]]; [now exists []|]. simpl.
destruct (isspace c); [|now exists []].
exists (c :: pre). simpl. now rewrite <- IH.
Qed.

Lemma lstrip_head (s : str) (c : N) (t : str) :
  lstrip s = c :: t -> isspace c = false.
Proof.
induction s as [|d s IH]; simpl; [discriminate|].
destruct (isspace d) eqn:E; [exact IH|].
intros H; injection H as <- _. exact E.
Qed.

Lemma rstrip_last (s t : str) (c : N) :
  rstrip s = t ++ [c] -> isspace c = false.
Proof.
unfold rstrip. intros H.
apply (f_equal (@rev N)) in H. rewrite rev_involutive, rev_app_distr in H.
exact (lstrip_head (rev s) c (rev t) H).
Qed.

Lemma strip_head (s : str) (c : N) (t : str) :
  strip s = c :: t -> isspace c = false.
Proof. unfold strip. apply lstrip_head. Qed.

Lemma strip_last (s t : str) (c : N) :
  strip s = t ++ [c] -> isspace c = false.
Proof.
unfold strip. intros H.
destruct (lstrip_split (rstrip s)) as [pre E].
rewrite H, app_assoc in E. exact (rstrip_last s (pre ++ t) c E).
Qed.

Lemma strip_fixed (s : str) :
  (forall c t, s = c :: t -> isspace c = false) ->
  (forall t c, s = t ++ [c] -> isspace c = false) ->
  strip s = s.
Proof.
intros Hhead Hlast. unfold strip, rstrip.
assert (E : lstrip (rev s) = rev s).
{ destruct (rev s) as [|c t] eqn:Er; [reflexivity|].
  simpl. rewrite (Hlast (rev t) c); [reflexivity|].
  rewrite <- (rev_involutive s), Er. reflexivity. }
rewrite E, rev_involutive.
destruct s as [|c t]; [reflexivity|].
simpl. now rewrite (Hhead c t eq_refl).
Qed.

(** X2.  No entry of the list of paths begins or ends with a white-space
    character or contains a newline, and stripping an entry again changes
    nothing. *)
Theorem listed_paths_are_stripped (stdin name : str) :
  In name (files stdin) ->
  strip name = name /\
  ~ In LF name /\
  (forall c t, name = c :: t -> isspace c = false) /\
  (forall t c, name = t ++ [c] -> isspace c = false).
Proof.
intros Hin.
assert (Hno : ~ In LF name).
{ pose proof (files_no_LF stdin) as F. rewrite Forall_forall in F. auto. }
unfold files in Hin. apply in_map_iff in Hin as (l & <- & _).
assert (Hh : forall c t, strip l = c :: t -> isspace c = false)
  by (intros c t; apply strip_head).
assert (Hl : forall t c, strip l = t ++ [c] -> isspace c = false)
  by (intros t c; apply strip_last).
split; [now apply strip_fixed|]. now repeat split.
Qed.

(** *** How a run ends *)

Section Ending.

Variable clang_format : bytes -> bytes.
Variable preferred_encoding : bytes -> option str.
Variable sed_option : str -> bytes * list str.

Local Abbreviation loop_body := (loop_body clang_format preferred_encoding sed_option).
Local Abbreviation for_each := (for_each clang_format preferred_encoding sed_option).
Local Abbreviation main := (main clang_format preferred_encoding sed_option).
Local Abbreviation conforms_at :=
  (conforms_at clang_format preferred_encoding sed_option).
Local Abbreviation conformance :=
  (conformance clang_format preferred_encoding sed_option).
Local Abbreviation piped := (piped sed_option).
Local Abbreviation iteration := (iteration sed_option).
Local Abbreviation iterations := (iterations sed_option).
Local Abbreviation pipe_output := (pipe_output clang_format sed_option).
Local Abbreviation formatted_at := (formatted_at clang_format sed_option).

Lemma written_started (name : str) :
  flat_map written (started name) = name ++ lit ": ".
Proof. unfold started. cbn [flat_map written]. now rewrite !app_nil_r. Qed.

Lemma written_piped (name : str) : flat_map written (piped name) = [].
Proof.
unfold Checker.piped. cbn [flat_map written app].
rewrite flat_map_app, written_child_events. reflexivity.
Qed.

(** C6, amended.  Standard input is a sequence of lines [names], each
    ended by a newline, and a last line [last] without newline (empty
    when the input ends with a newline); the paths are these lines,
    stripped, in this order.  When every one of them is read and
    compared, what the run adds to standard output is, for each path in
    this order, the line [<path>: OK] or [<path>: needs formatting]
    followed by an empty line, and nothing else: two lines per path. *)
Theorem two_lines_per_path_in_input_order
  (names : list str) (last : str) (w : World) (vs : list bool) :
  Forall (fun name => ~ In LF name) names ->
  ~ In LF last ->
  let stdin := one_per_line names ++ last in
  let paths :=
    map strip names ++ match last with [] => [] | _ => [strip last] end in
  conformance w (clock w) paths = Some vs ->
  stdout (snd (main stdin w)) = stdout w ++ reports paths vs /\
  readlines (reports paths vs) =
    flat_map (fun pv => report_lines (fst pv) (snd pv)) (combine paths vs) /\
  List.length (readlines (reports paths vs)) = 2 * List.length paths.
Proof.
intros Hn Hl stdin paths H.
assert (Hf : files stdin = paths) by exact (files_lines names last Hn Hl).
rewrite <- Hf in H |- *.
exact (run_reports clang_format preferred_encoding sed_option stdin w vs H).
Qed.

(** An iteration that does not reach its comparison ends the run with one
    of four exceptions, having printed the prefix of its path only. *)
Lemma loop_body_stops (name : str) (status : Z) (w : World) :
  conforms_at w (clock w) name = None ->
  exists e n evs,
    loop_body name status w = (Raised e, after w n evs) /\
    stops_run e /\
    flat_map written evs = name ++ lit ": ".
Proof.
rewrite loop_body_eq.
unfold Checker.conforms_at, Checker.original_of, stops_run.
destruct (lookup (disk_at w (clock w)) name) as [[c1| |]|];
  try (intros _; eexists _, _, _; split; [reflexivity|]; split;
       [tauto | apply written_started]).
destruct (preferred_encoding c1) as [t1|];
  try (intros _; eexists _, _, _; split; [reflexivity|]; split;
       [tauto | apply written_started]).
cbn [option_map].
destruct (formatted_at w _ name) as [f|]; try discriminate.
intros _; eexists _, _, _; split; [reflexivity|]. split; [tauto|].
rewrite flat_map_app, written_started, written_piped. apply app_nil_r.
Qed.

Lemma stops_run_exit_code (e : Exn) :
  stops_run e -> exit_code (@Raised unit e) = 1%Z.
Proof. intros [->|[->|[->| ->]]]; reflexivity. Qed.

Lemma for_each_stops (pre post : list str) (bad : str) :
  forall (status : Z) (w : World) (vs : list bool),
  conformance w (clock w) pre = Some vs ->
  conforms_at w (2 * List.length pre + clock w) bad = None ->
  exists e n evs,
    for_each (pre ++ bad :: post) status w = (Raised e, after w n evs) /\
    stops_run e /\
    flat_map written evs = reports pre vs ++ bad ++ lit ": ".
Proof.
intros status w vs Hpre Hbad.
rewrite for_each_app. unfold bind at 1.
rewrite (for_each_conformance clang_format preferred_encoding sed_option
           pre status w vs Hpre).
cbn [Checker.for_each]. unfold bind at 1.
destruct (loop_body_stops bad (status + Z.of_nat (differing vs))
            (after w (2 * List.length pre) (iterations pre vs)))
  as (e & n & evs & E & He & Hw).
{ unfold Checker.conforms_at in *. exact Hbad. }
rewrite E, after_after. eexists _, _, _. split; [reflexivity|].
split; [exact He|].
now rewrite flat_map_app, written_iterations, Hw.
Qed.

(** The comparisons of a list fail at a first entry. *)
Lemma conformance_none (names : list str) :
  forall (w : World) (t : nat),
  conformance w t names = None ->
  exists pre bad post vs,
    names = pre ++ bad :: post /\
    conformance w t pre = Some vs /\
    conforms_at w (2 * List.length pre + t) bad = None.
Proof.
induction names as [|name rest IH]; intros w t; simpl; [discriminate|].
destruct (conforms_at w t name) as [v|] eqn:Ev.
- destruct (conformance w (S (S t)) rest) as [vs|] eqn:Er; [discriminate|].
  intros _. destruct (IH w _ Er) as (pre & bad & post & vs & -> & Hp & Hb).
  exists (name :: pre), bad, post, (v :: vs). split; [reflexivity|].
  split.
  + simpl. now rewrite Ev, Hp.
  + rewrite <- Hb. f_equal. simpl. lia.
- intros _. exists [], name, rest, []. now repeat split.
Qed.

Lemma differing_le (vs : list bool) : differing vs <= List.length vs.
Proof. unfold differing. apply filter_length_le. Qed.

Lemma main_stops
  (stdin : str) (w : World)
  (pre post : list str) (bad : str) (vs : list bool) :
  files stdin = pre ++ bad :: post ->
  conformance w (clock w) pre = Some vs ->
  conforms_at w (2 * List.length pre + clock w) bad = None ->
  exists e n evs,
    main stdin w = (Raised e, after w n evs) /\
    stops_run e /\
    flat_map written evs = reports pre vs ++ bad ++ lit ": ".
Proof.
intros Hfiles Hpre Hbad. unfold Checker.main, bind. rewrite Hfiles.
destruct (for_each_stops pre post bad 0%Z w vs Hpre Hbad)
  as (e & n & evs & E & He & Hw).
rewrite E. now exists e, n, evs.
Qed.

(** X3.  Whatever makes an iteration raise (the file cannot be opened,
    it does not decode in the locale's encoding, or the output of the
    pipe does not decode as UTF-8), the run ends there: the earlier paths
    are reported, the prefix of the failing path is the last thing
    printed, [sys.exit] is not called and the exit code is 1. *)
Theorem first_failure_ends_run
  (stdin : str) (w : World)
  (pre post : list str) (bad : str) (vs : list bool) :
  files stdin = pre ++ bad :: post ->
  conformance w (clock w) pre = Some vs ->
  conforms_at w (2 * List.length pre + clock w) bad = None ->
  exists e,
    fst (main stdin w) = Raised e /\
    stops_run e /\
    exit_code (fst (main stdin w)) = 1%Z /\
    stdout (snd (main stdin w)) =
      stdout w ++ reports pre vs ++ bad ++ lit ": ".
Proof.
intros Hfiles Hpre Hbad.
destruct (main_stops stdin w pre post bad vs Hfiles Hpre Hbad)
  as (e & n & evs & E & He & Hw).
rewrite E. cbn [fst snd]. exists e. split; [reflexivity|].
split; [exact He|]. split; [now apply stops_run_exit_code|].
now rewrite stdout_after, Hw.
Qed.

(** X4.  After a run that compares every entry, the exit code is the
    number of differing entries modulo 256. *)
Theorem exit_code_is_count_mod_256
  (stdin : str) (w : World) (vs : list bool) :
  conformance w (clock w) (files stdin) = Some vs ->
  exit_code (fst (main stdin w)) = (Z.of_nat (differing vs) mod 256)%Z /\
  (0 <= exit_code (fst (main stdin w)) < 256)%Z.
Proof.
intros H.
rewrite (main_conformance clang_format preferred_encoding sed_option stdin w vs H).
cbn [fst exit_code]. change 255%Z with (Z.ones 8).
rewrite Z.land_ones by lia. change (2 ^ 8)%Z with 256%Z.
split; [reflexivity|]. apply Z.mod_pos_bound. lia.
Qed.

(** X5.  With fewer than 256 entries in the list, exit code 0 is a sound
    success: every entry was opened, read and compared, and every entry
    conforms. *)
Theorem exit_zero_means_all_conform (stdin : str) (w : World) :
  List.length (files stdin) < 256 ->
  exit_code (fst (main stdin w)) = 0%Z ->
  exists vs,
    conformance w (clock w) (files stdin) = Some vs /\
    Forall (fun v => v = true) vs.
Proof.
intros Hlen Hexit.
destruct (conformance w (clock w) (files stdin)) as [vs|] eqn:E.
- exists vs. split; [reflexivity|]. apply differing_zero.
  rewrite (main_conformance clang_format preferred_encoding sed_option stdin w vs E)
    in Hexit.
  cbn [fst exit_code] in Hexit.
  pose proof (differing_le vs) as L.
  pose proof (combine_lengths clang_format preferred_encoding sed_option
                (files stdin) vs w (clock w) E) as L'.
  rewrite land_255_small in Hexit by lia. lia.
- exfalso.
  destruct (conformance_none (files stdin) w (clock w) E)
    as (pre & bad & post & vs & Hf & Hp & Hb).
  destruct (main_stops stdin w pre post bad vs Hf Hp Hb)
    as (e & n & evs & Em & He & _).
  rewrite Em in Hexit. cbn [fst] in Hexit.
  rewrite (stops_run_exit_code e He) in Hexit. discriminate.
Qed.

End Ending.

(** *** Decoding and carriage returns *)

Lemma universal_newlines_no_CR_upto (n : nat) :
  forall t, List.length t <= n -> ~ In CR (universal_newlines t).
Proof.
induction n as [|n IH]; intros [|c t] Hlen; simpl in *; try tauto; try lia.
destruct (N.eqb_spec c CR) as [->|Hc].
- intros [H|H]; [discriminate|].
  destruct t as [|d t']; [exact H|].
  destruct (N.eqb d LF); revert H; apply IH; simpl in *; lia.
- intros [H|H]; [congruence|]. revert H. apply IH. lia.
Qed.

(** A translated text holds no carriage return. *)
Lemma universal_newlines_no_CR (t : str) : ~ In CR (universal_newlines t).
Proof. exact (universal_newlines_no_CR_upto (List.length t) t (le_n _)). Qed.

(** A byte 13 of the input is a carriage return of the decoded text. *)
Lemma utf8_decode_N_keeps_CR (t : str) :
  forall bs, utf8_decode_N bs = Some t -> In CR bs -> In CR t.
Proof.
induction t as [|cp t IH]; intros bs Hbs Hin.
- apply utf8_decode_N_nil in Hbs. now subst.
- apply utf8_decode_N_cons in Hbs.
  destruct Hbs as [(r & -> & A1 & A2)
                  |[(n0 & n1 & r & -> & A1 & A2 & A3)
                  |[(n0 & n1 & n2 & r & -> & A1 & A2 & A3 & A4)
                  |(n0 & n1 & n2 & n3 & r & -> & A1 & A2 & A3 & A4)]]];
    unfold CR in *; simpl in Hin;
    repeat (destruct Hin as [Hin|Hin]; [try (exfalso; lia)|]);
    try (right; eapply IH; eassumption).
  left. exact Hin.
Qed.

Lemma utf8_decode_keeps_CR (bs : bytes) (t : str) :
  utf8_decode bs = Some t -> In x0d bs -> In CR t.
Proof.
unfold utf8_decode. intros H Hin.
apply (utf8_decode_N_keeps_CR t _ H).
change CR with (Byte.to_N x0d). now apply in_map.
Qed.

Section Edges.

Variable clang_format : bytes -> bytes.
Variable preferred_encoding : bytes -> option str.
Variable sed_option : str -> bytes * list str.

Local Abbreviation loop_body := (loop_body clang_format preferred_encoding sed_option).
Local Abbreviation main := (main clang_format preferred_encoding sed_option).
Local Abbreviation conforms_at :=
  (conforms_at clang_format preferred_encoding sed_option).
Local Abbreviation conformance :=
  (conformance clang_format preferred_encoding sed_option).
Local Abbreviation piped := (piped sed_option).
Local Abbreviation iteration := (iteration sed_option).
Local Abbreviation iterations := (iterations sed_option).
Local Abbreviation pipe_output := (pipe_output clang_format sed_option).
Local Abbreviation formatted_at := (formatted_at clang_format sed_option).

(** X6.  A file for which the output of the pipe holds a carriage return
    is never found to conform, whatever the file holds and whatever the
    locale: [original] has its line ends translated and holds none. *)
Theorem carriage_return_in_pipe_output_never_conforms
  (w : World) (t : nat) (name : str) :
  In x0d (pipe_output w (S t) name) ->
  conforms_at w t name <> Some true.
Proof.
unfold Checker.conforms_at, Checker.original_of, Checker.formatted_at.
intros Hin.
destruct (lookup (disk_at w t) name) as [[c| |]|]; try discriminate.
destruct (preferred_encoding c) as [text|]; try discriminate.
cbn [option_map].
destruct (utf8_decode _) as [f|] eqn:Ef; try discriminate.
intros H. injection H as E.
apply str_eqb_eq in E.
apply (universal_newlines_no_CR text). rewrite E.
exact (utf8_decode_keeps_CR _ f Ef Hin).
Qed.

(** X7.  The output of the pipe is decoded as UTF-8 whatever the locale:
    a file that the locale's encoding reads, but whose pipe output is not
    valid UTF-8, ends the run with [UnicodeDecodeError] after the three
    children have run, with no verdict printed. *)
Theorem undecodable_pipe_output_aborts
  (name : str) (status : Z) (w : World) (content : bytes) (text : str) :
  lookup (disk_at w (clock w)) name = Some (Regular content) ->
  preferred_encoding content = Some text ->
  formatted_at w (S (clock w)) name = None ->
  loop_body name status w =
    (Raised UnicodeDecodeError, after w 2 (started name ++ piped name)) /\
  stdout (snd (loop_body name status w)) = stdout w ++ name ++ lit ": " /\
  exit_code (fst (loop_body name status w)) = 1%Z.
Proof.
intros H1 H2 H3. rewrite loop_body_eq, H1, H2, H3. cbn [fst snd].
split; [reflexivity|]. split; [|reflexivity].
rewrite stdout_after, flat_map_app, written_started, written_piped.
now rewrite app_nil_r.
Qed.

(** X8.  A file that is gone (or no longer readable) when the first [sed]
    opens it is not an error: the pipe runs on no input, and the verdict
    compares the text read before with what the formatter makes of the
    empty input.  The path is one that sed takes for a file operand. *)
Theorem file_gone_before_pipe_is_compared_with_empty
  (name : str) (status : Z) (w : World)
  (content : bytes) (text formatted : str) (e : Exn) :
  is_option name = false ->
  lookup (disk_at w (clock w)) name = Some (Regular content) ->
  preferred_encoding content = Some text ->
  access_error (lookup (disk_at w (S (clock w))) name) = Some e ->
  utf8_decode (sed p3_script (clang_format [])) = Some formatted ->
  let v := str_eqb (universal_newlines text) formatted in
  loop_body name status w =
    (Returned (status + (if v then 0 else 1))%Z,
     after w 2 (iteration name v)).
Proof.
intros Hopt H1 H2 H3 H4 v. rewrite loop_body_eq, H1, H2.
assert (E : formatted_at w (S (clock w)) name = Some formatted).
{ unfold Checker.formatted_at, Checker.pipe_output, p1_output.
  rewrite Hopt.
  destruct (lookup (disk_at w (S (clock w))) name) as [[c| |]|];
    simpl in H3; try discriminate; exact H4. }
rewrite E. reflexivity.
Qed.

(** On a disk that nobody changes, the comparison of an entry does not
    depend on its place in the list. *)
Lemma conforms_at_still (w : World) (t : nat) (name : str) :
  still w -> conforms_at w t name = conforms_at w 0 name.
Proof.
intros H. unfold Checker.conforms_at, Checker.formatted_at,
  Checker.pipe_output.
now rewrite (H t), (H (S t)), (H 1).
Qed.

Lemma conformance_still (w : World) (names : list str) :
  still w ->
  forall t vs,
  conformance w t names = Some vs <->
  Forall2 (fun name v => conforms_at w 0 name = Some v) names vs.
Proof.
intros H. induction names as [|name rest IH]; intros t vs; simpl.
- split; [intros E; injection E as <-; constructor|].
  intros E; inversion E; reflexivity.
- rewrite (conforms_at_still w t name H).
  destruct (conforms_at w 0 name) as [v|] eqn:Ev.
  + destruct (conformance w (S (S t)) rest) as [vs'|] eqn:Er; simpl.
    * split.
      -- intros E; injection E as <-. constructor; [exact Ev|].
         now apply (IH (S (S t))).
      -- intros E; inversion E as [|? v' ? vs'' Hv Hrest]; subst.
         apply (IH (S (S t))) in Hrest. rewrite Ev in Hv.
         congruence.
    * split; [discriminate|].
      intros E; inversion E as [|? v' ? vs'' Hv Hrest]; subst.
      apply (IH (S (S t))) in Hrest. congruence.
  + split; [discriminate|].
    intros E; inversion E; congruence.
Qed.

Lemma differing_permutation (vs vs' : list bool) :
  Permutation vs vs' -> differing vs = differing vs'.
Proof.
unfold differing. induction 1 as [|x l l' _ IH|x y l|l l' l'' _ IH1 _ IH2].
- reflexivity.
- simpl. destruct (negb x); simpl; now rewrite IH.
- simpl. destruct (negb x), (negb y); reflexivity.
- now rewrite IH1.
Qed.

(** X9.  On a disk that nobody changes, the outcome of a run that
    compares every entry does not depend on the order in which the paths
    are listed: the same paths in another order give the same exit
    status. *)
Theorem exit_status_invariant_under_reordering
  (stdin stdin' : str) (w : World) (vs : list bool) :
  still w ->
  Permutation (files stdin) (files stdin') ->
  conformance w (clock w) (files stdin) = Some vs ->
  fst (main stdin' w) = fst (main stdin w) /\
  fst (main stdin w) = Raised (SystemExit (Z.of_nat (differing vs))).
Proof.
intros Hstill Hperm Hvs.
rewrite (main_conformance clang_format preferred_encoding sed_option stdin w vs Hvs).
cbn [fst]. split; [|reflexivity].
apply (conformance_still w (files stdin) Hstill) in Hvs.
destruct (Permutation_Forall2 Hperm Hvs) as (vs' & Hp & H').
apply (conformance_still w (files stdin') Hstill (clock w)) in H'.
rewrite (main_conformance clang_format preferred_encoding sed_option stdin' w vs' H').
cbn [fst]. now rewrite (differing_permutation vs vs' Hp).
Qed.

Lemma differing_repeat_false (k : nat) : differing (repeat false k) = k.
Proof.
unfold differing. induction k as [|k IH]; simpl; [reflexivity|].
now rewrite IH.
Qed.

(** X10.  The status counts entries, not files: on a disk that nobody
    changes, a path that needs formatting and is listed [k] times is
    compared [k] times and adds [k] to the status. *)
Theorem repeated_path_counts_each_time
  (stdin : str) (w : World) (name : str) (k : nat) :
  still w ->
  files stdin = repeat name k ->
  conforms_at w 0 name = Some false ->
  fst (main stdin w) = Raised (SystemExit (Z.of_nat k)) /\
  clock (snd (main stdin w)) = 2 * k + clock w.
Proof.
intros Hstill Hfiles Hname.
assert (H : conformance w (clock w) (files stdin) = Some (repeat false k)).
{ apply (conformance_still w (files stdin) Hstill). rewrite Hfiles.
  clear Hfiles. induction k as [|k IH]; simpl; constructor; auto. }
rewrite (main_conformance clang_format preferred_encoding sed_option stdin w _ H).
cbn [fst snd after clock].
now rewrite differing_repeat_false, Hfiles, repeat_length.
Qed.

End Edges.

(** *** The marker in the two substitutions *)

Lemma match_chars_none (p s rest : bytes) :
  match_here (map Chr p) s = None -> s <> p ++ rest.
Proof. intros H ->. rewrite match_chars_prefix in H. discriminate. Qed.

(** [occursb] decides [occurs]. *)
Lemma occursb_occurs (p s : bytes) : occursb p s = true <-> occurs p s.
Proof.
unfold occurs. induction s as [|c t IH]; simpl.
- destruct (match_here (map Chr p) []) as [n|] eqn:E.
  + apply match_chars_some in E as [_ [rest E]].
    split; [intros _; now exists [], rest|reflexivity].
  + split; [discriminate|]. intros (pre & post & H).
    destruct pre; [|discriminate]. simpl in H.
    now apply (match_chars_none _ _ post) in E.
- fold (match_here (map Chr p) (c :: t)).
  destruct (match_here (map Chr p) (c :: t)) as [n|] eqn:E.
  + apply match_chars_some in E as [_ [rest E]].
    split; [intros _; now exists [], rest|reflexivity].
  + rewrite IH. split.
    * intros (pre & post & ->). now exists (c :: pre), post.
    * intros (pre & post & H). destruct pre as [|d pre].
      -- now apply (match_chars_none _ _ post) in E.
      -- injection H as _ ->. now exists pre, post.
Qed.

(** A substitution whose expression matches nowhere copies its input. *)
Lemma gsub_no_match (re : regex) (repl s : bytes) :
  (forall pre suf, s = pre ++ suf -> match_here re suf = None) ->
  gsub re repl s = s.
Proof.
induction s as [|c t IH]; intros H; [now simp gsub|].
rewrite gsub_copy by exact (H [] (c :: t) eq_refl).
f_equal. apply IH. intros pre suf ->. exact (H (c :: pre) suf eq_refl).
Qed.

Lemma split_lines_first (s l : bytes) (ls : list bytes) :
  split_lines s = l :: ls -> exists b, s = l ++ b.
Proof.
intros E. rewrite <- (join_split_lines s), E.
destruct ls as [|l' ls]; [exists []; simpl; now rewrite app_nil_r|].
rewrite join_lines_cons. now eexists.
Qed.

(** A line of a text is a piece of the text. *)
Lemma in_split_lines (s l : bytes) :
  In l (split_lines s) -> exists a b, s = a ++ l ++ b.
Proof.
revert l; induction s as [|c t IH]; intros l; simpl.
- intros [<-|[]]. now exists [], [].
- destruct (Byte.eqb c NL) eqn:Ec.
  + apply byte_dec_bl in Ec; subst c. intros [<-|H].
    * now exists [], (NL :: t).
    * destruct (IH l H) as (a & b & ->). now exists (NL :: a), b.
  + destruct (split_lines t) as [|l0 ls] eqn:Es.
    * destruct (split_lines_cons t) as (? & ? & E). congruence.
    * intros [<-|H].
      -- destruct (split_lines_first t l0 ls Es) as [b ->].
         now exists [], b.
      -- destruct (IH l (or_intror H)) as (a & b & ->).
         now exists (c :: a), b.
Qed.

Lemma occurs_in_line (p s l : bytes) :
  In l (split_lines s) -> occurs p l -> occurs p s.
Proof.
intros Hl (pre & post & ->).
destruct (in_split_lines s _ Hl) as (a & b & ->).
exists (a ++ pre), (post ++ b). now rewrite <- !app_assoc.
Qed.

(** The lines of what a substitution writes are the substituted lines. *)
Lemma split_lines_sed_s (re : regex) (repl input : bytes) :
  ~ In NL repl ->
  split_lines (sed_s re repl input) = map (gsub re repl) (split_lines input).
Proof.
intros Hrepl. unfold sed_s.
destruct (split_lines_cons input) as (l & ls & E).
pose proof (split_lines_no_NL input) as Hno. rewrite E in *.
cbn [map]. apply split_join_lines.
change (gsub re repl l :: map (gsub re repl) ls)
  with (map (gsub re repl) (l :: ls)).
apply Forall_map. eapply Forall_impl; [|exact Hno].
intros x Hx Hin. destruct (gsub_incl _ _ _ _ Hin); contradiction.
Qed.

(** A substitution that matches nowhere in the input copies the input. *)
Lemma sed_s_no_match (re : regex) (repl input : bytes) :
  (forall l pre suf, In l (split_lines input) -> l = pre ++ suf ->
     match_here re suf = None) ->
  sed_s re repl input = input.
Proof.
intros H. unfold sed_s.
rewrite (map_ext_in _ (fun l => l)).
- now rewrite map_id, join_split_lines.
- intros l Hl. apply gsub_no_match. intros pre suf. now apply H.
Qed.

Lemma split_lines_app (a rest : bytes) :
  ~ In NL a ->
  exists l ls,
    split_lines rest = l :: ls /\ split_lines (a ++ rest) = (a ++ l) :: ls.
Proof.
intros Ha. destruct (split_lines_cons rest) as (l & ls & E).
exists l, ls. split; [exact E|].
induction a as [|c a IH]; [exact E|]. simpl.
destruct (Byte.eqb c NL) eqn:Ec.
- apply byte_dec_bl in Ec. exfalso; apply Ha; now left.
- rewrite IH; [reflexivity|]. intros H; apply Ha; now right.
Qed.

Lemma join_lines_app_head (x l : bytes) (ls : list bytes) :
  join_lines ((x ++ l) :: ls) = x ++ join_lines (l :: ls).
Proof. destruct ls; simpl; [reflexivity|]. now rewrite <- app_assoc. Qed.

Section Marker.

Variable p : bytes.
Variable hash : byte.
Variable p' : bytes.
Hypothesis p_starts : p = hash :: p'.
Hypothesis hash_not_slash : hash <> SLASH.
Hypothesis hash_not_space : hash <> x20.
Hypothesis no_slash : ~ In SLASH p.
Hypothesis hash_once : ~ In hash p'.

Local Abbreviation mask := (gsub (map Chr p) (SLASH :: SLASH :: p)).
Local Abbreviation unmask_re :=
  (Chr SLASH :: Chr SLASH :: Star x20 :: map Chr p).

(** In the masked text, two slashes stand right before every occurrence
    of the marker. *)
Lemma masked_marker_after_slashes (n : nat) :
  forall s, List.length s <= n ->
  forall pre post, mask s = pre ++ p ++ post ->
  exists pre', pre = pre' ++ [SLASH; SLASH].
Proof.
induction n as [|n IH]; intros s Hlen pre post H.
- destruct s; [|simpl in Hlen; lia]. simp gsub in H.
  rewrite p_starts in H. destruct pre; discriminate.
- destruct (match_marker_cases p s) as [[r ->]|Hn].
  + rewrite (mask_at_marker p hash p' p_starts) in H.
    assert (Hr : List.length r <= n).
    { rewrite length_app, p_starts in Hlen. simpl in Hlen. lia. }
    destruct pre as [|a [|b pre2]].
    * exfalso. rewrite p_starts in H. injection H as H _.
      now apply hash_not_slash.
    * exfalso. rewrite p_starts in H. injection H as _ H _.
      now apply hash_not_slash.
    * injection H as Ea Eb H. subst a b.
      destruct (app_eq_app _ _ _ _ H) as [l [[Hp Hm]|[Hp Hm]]].
      -- destruct pre2 as [|y pre2]; [now exists []|]. exfalso.
         destruct l as [|x l].
         ++ simpl in Hm.
            destruct (IH r Hr [] post (eq_sym Hm)) as [pre' E].
            destruct pre'; discriminate.
         ++ rewrite p_starts in Hp, Hm. injection Hp as _ Hp.
            injection Hm as Hx _. apply hash_once.
            rewrite Hp, Hx. apply in_or_app. right. now left.
      -- subst pre2. destruct (IH r Hr l post Hm) as [pre' ->].
         exists (SLASH :: SLASH :: p ++ pre').
         simpl. now rewrite <- app_assoc.
  + destruct s as [|c t].
    * simp gsub in H. rewrite p_starts in H. destruct pre; discriminate.
    * rewrite (mask_elsewhere p c t Hn) in H.
      destruct pre as [|a pre2].
      -- exfalso. simpl in H.
         assert (Hm : mask (c :: t) = p ++ post)
           by (now rewrite (mask_elsewhere p c t Hn)).
         destruct (mask_prefix_reflects p hash p' p_starts p no_slash
                     (c :: t) post Hm) as [rest' E].
         exact (match_chars_none p (c :: t) rest' Hn E).
      -- injection H as Ec H. subst a.
         destruct (IH t ltac:(simpl in Hlen; lia) pre2 post H) as [pre' ->].
         now exists (c :: pre').
Qed.

(** The starred space takes every space before the marker. *)
Lemma match_star_run (j : nat) (rest : bytes) :
  match_here (Star x20 :: map Chr p) (repeat x20 j ++ p ++ rest)
  = Some (j + List.length p).
Proof.
induction j as [|j IH]; rewrite match_star_unfold.
- cbn [repeat app].
  assert (E : p ++ rest = hash :: (p' ++ rest)) by now rewrite p_starts.
  rewrite E.
  destruct (Byte.eqb x20 hash) eqn:Eh.
  { apply byte_dec_bl in Eh. now elim hash_not_space. }
  rewrite <- E. apply match_chars_prefix.
- cbn [repeat app]. rewrite (byte_dec_lb eq_refl), IH. reflexivity.
Qed.

Lemma unmask_spaced_marker (j : nat) (rest : bytes) :
  gsub unmask_re p (SLASH :: SLASH :: repeat x20 j ++ p ++ rest)
  = p ++ gsub unmask_re p rest.
Proof.
rewrite (gsub_match _ _ _ _ (S (j + List.length p))).
- cbn [skipn].
  replace (j + List.length p) with (List.length (repeat x20 j ++ p))
    by (now rewrite length_app, repeat_length).
  rewrite app_assoc, skipn_app, skipn_all, Nat.sub_diag. reflexivity.
- rewrite !match_chr_unfold, !(byte_dec_lb eq_refl), match_star_run.
  reflexivity.
Qed.

(** Where the second expression matches, the marker occurs. *)
Lemma unmask_match_occurs (s : bytes) (n : nat) :
  match_here unmask_re s = Some n -> occurs p s.
Proof.
destruct s as [|a [|b s]]; try discriminate.
- rewrite match_chr_unfold. destruct (Byte.eqb SLASH a); discriminate.
- rewrite !match_chr_unfold.
  destruct (Byte.eqb SLASH a); [|discriminate].
  destruct (Byte.eqb SLASH b); [|discriminate].
  destruct (match_here (Star x20 :: map Chr p) s) as [m|] eqn:E;
    [|discriminate].
  intros _. apply match_star_chars_some in E as (j & rest & ->).
  now exists (a :: b :: repeat x20 j), rest.
Qed.

End Marker.

Lemma marker_no_NL : ~ In NL MARKER.
Proof.
vm_compute. intros H. repeat (destruct H as [H|H]; [discriminate|]). exact H.
Qed.

Lemma marker_no_slash : ~ In SLASH MARKER.
Proof.
vm_compute. intros H. repeat (destruct H as [H|H]; [discriminate|]). exact H.
Qed.

Lemma marker_hash_once : ~ In x23 (blit "pragma omp").
Proof.
vm_compute. intros H. repeat (destruct H as [H|H]; [discriminate|]). exact H.
Qed.

(** X11.  The second [sed] takes away two slashes and any number of
    spaces in front of the marker: the directive comes back bare however
    many spaces the formatter has put after the [//] of the masked
    line. *)
Theorem second_sed_removes_slashes_and_spaces (j : nat) (rest : bytes) :
  sed p3_script (blit "//" ++ repeat x20 j ++ MARKER ++ rest)
  = MARKER ++ sed p3_script rest.
Proof.
unfold sed. rewrite p3_script_parsed. unfold sed_s.
assert (Ha : ~ In NL (blit "//" ++ repeat x20 j ++ MARKER)).
{ rewrite !in_app_iff. intros [H|[H|H]].
  - vm_compute in H. repeat (destruct H as [H|H]; [discriminate|]). exact H.
  - apply repeat_spec in H. discriminate.
  - exact (marker_no_NL H). }
destruct (split_lines_app _ rest Ha) as (l & ls & E & E').
replace (blit "//" ++ repeat x20 j ++ MARKER ++ rest)
  with ((blit "//" ++ repeat x20 j ++ MARKER) ++ rest)
  by (now rewrite <- !app_assoc).
rewrite E', E. cbn [map].
replace ((blit "//" ++ repeat x20 j ++ MARKER) ++ l)
  with (SLASH :: SLASH :: repeat x20 j ++ MARKER ++ l)
  by (rewrite <- !app_assoc; reflexivity).
fold MARKER.
rewrite (unmask_spaced_marker MARKER x23 (blit "pragma omp") eq_refl
           ltac:(discriminate) j l).
apply join_lines_app_head.
Qed.

Lemma first_sed_without_marker (s : bytes) :
  occursb MARKER s = false -> sed p1_script s = s.
Proof.
intros H. unfold sed. rewrite p1_script_parsed.
apply sed_s_no_match. intros l pre suf Hl ->.
destruct (match_here _ suf) as [n|] eqn:E; [exfalso|reflexivity].
apply match_chars_some in E as [_ [rest ->]].
assert (O : occurs MARKER s).
{ apply (occurs_in_line MARKER s _ Hl). now exists pre, rest. }
apply occursb_occurs in O. congruence.
Qed.

Lemma second_sed_without_marker (s : bytes) :
  occursb MARKER s = false -> sed p3_script s = s.
Proof.
intros H. unfold sed. rewrite p3_script_parsed.
apply sed_s_no_match. intros l pre suf Hl ->.
destruct (match_here _ suf) as [n|] eqn:E; [exfalso|reflexivity].
apply (unmask_match_occurs (blit "#pragma omp")) in E.
destruct E as (a & b & ->).
assert (O : occurs MARKER s).
{ apply (occurs_in_line MARKER s _ Hl). exists (pre ++ a), b.
  now rewrite <- app_assoc. }
apply occursb_occurs in O. congruence.
Qed.

(** X12.  For a file in which the marker does not occur, and whose
    formatted text does not hold it either, the two [sed] are
    transparent: the output of the pipe is the output of the formatter. *)
Theorem pipeline_is_formatter_without_marker
  (clang_format : bytes -> bytes) (content : bytes) :
  occursb MARKER content = false ->
  occursb MARKER (clang_format content) = false ->
  pipeline clang_format content = clang_format content.
Proof.
intros H1 H2. unfold pipeline.
rewrite (first_sed_without_marker content H1).
exact (second_sed_without_marker _ H2).
Qed.

(** X13.  In every line that the first [sed] writes, every occurrence of
    the bytes [#pragma omp] has two slashes right before it. *)
Theorem masked_marker_follows_slashes (input line pre post : bytes) :
  In line (split_lines (sed p1_script input)) ->
  line = pre ++ MARKER ++ post ->
  exists pre', pre = pre' ++ blit "//".
Proof.
unfold sed. rewrite p1_script_parsed.
rewrite split_lines_sed_s.
2: { vm_compute. intros H.
     repeat (destruct H as [H|H]; [discriminate|]). exact H. }
intros Hin Hline. apply in_map_iff in Hin as (l & Hl & _).
rewrite Hline in Hl.
exact (masked_marker_after_slashes MARKER x23 (blit "pragma omp") eq_refl
         ltac:(discriminate) marker_no_slash marker_hash_once
         (List.length l) l (le_n _) pre post Hl).
Qed.

(** *** A directive line through the pipeline *)

(** Bytes at which the expression cannot match are copied. *)
Lemma gsub_skip (re : regex) (repl q s : bytes) :
  (forall c t, In c q -> match_here re (c :: t) = None) ->
  gsub re repl (q ++ s) = q ++ gsub re repl s.
Proof.
induction q as [|c q IH]; intros H; [reflexivity|].
cbn [app]. rewrite gsub_copy.
- f_equal. apply IH. intros d t Hd. apply H. now right.
- destruct (q ++ s); apply H; now left.
Qed.

Lemma sed_s_line (re : regex) (repl l : bytes) :
  ~ In NL l -> sed_s re repl l = gsub re repl l.
Proof.
intros H. unfold sed_s. now rewrite (split_lines_last l H).
Qed.

Lemma slashes_no_NL : ~ In NL (SLASH :: SLASH :: MARKER).
Proof.
vm_compute. intros H. repeat (destruct H as [H|H]; [discriminate|]). exact H.
Qed.

(** The first [sed], line by line. *)
Lemma first_sed_lines (input : bytes) :
  split_lines (sed p1_script input) =
  map (gsub (map Chr MARKER) (SLASH :: SLASH :: MARKER)) (split_lines input).
Proof.
unfold sed. rewrite p1_script_parsed.
exact (split_lines_sed_s _ _ input slashes_no_NL).
Qed.

(** The second [sed], line by line. *)
Lemma second_sed_lines (input : bytes) :
  split_lines (sed p3_script input) =
  map (gsub (Chr SLASH :: Chr SLASH :: Star x20 :: map Chr MARKER) MARKER)
      (split_lines input).
Proof.
unfold sed. rewrite p3_script_parsed.
exact (split_lines_sed_s _ _ input marker_no_NL).
Qed.

Lemma first_sed_line (l : bytes) :
  ~ In NL l ->
  sed p1_script l = gsub (map Chr MARKER) (SLASH :: SLASH :: MARKER) l.
Proof.
intros H. unfold sed. rewrite p1_script_parsed. exact (sed_s_line _ _ l H).
Qed.

(** The first [sed] on a directive line: the indentation is copied, and
    two slashes are put before the marker. *)
Lemma mask_directive_line (indent rest : bytes) :
  Forall blank indent ->
  gsub (map Chr MARKER) (SLASH :: SLASH :: MARKER) (indent ++ MARKER ++ rest)
  = indent ++ SLASH :: SLASH :: MARKER
      ++ gsub (map Chr MARKER) (SLASH :: SLASH :: MARKER) rest.
Proof.
intros Hb. rewrite gsub_skip.
- now rewrite (mask_at_marker MARKER x23 (blit "pragma omp") eq_refl).
- intros c t Hc. rewrite Forall_forall in Hb.
  destruct (Hb c Hc) as [-> | ->]; reflexivity.
Qed.

(** The second [sed] on the comment that a directive line has become,
    with any number of spaces after the two slashes: the directive line
    comes back. *)
Lemma unmask_directive_line (indent rest : bytes) (j : nat) :
  Forall blank indent ->
  gsub (Chr SLASH :: Chr SLASH :: Star x20 :: map Chr MARKER) MARKER
    (indent ++ SLASH :: SLASH :: repeat x20 j ++ MARKER
       ++ gsub (map Chr MARKER) (SLASH :: SLASH :: MARKER) rest)
  = indent ++ MARKER ++ rest.
Proof.
intros Hb. rewrite gsub_skip.
- rewrite (unmask_spaced_marker MARKER x23 (blit "pragma omp") eq_refl
             ltac:(discriminate) j).
  rewrite (unmask_mask MARKER x23 (blit "pragma omp") eq_refl
             ltac:(discriminate) ltac:(discriminate) marker_no_slash).
  reflexivity.
- intros c t Hc. rewrite Forall_forall in Hb.
  destruct (Hb c Hc) as [-> | ->]; reflexivity.
Qed.

(** C4, amended.  Line by line, for every formatter.  The formatter
    receives each line of the file as the first [sed] writes it, and
    where the formatter writes such a line as it received it, the
    pipeline writes the line as it was in the file, whatever the
    formatter has done to the other lines.  For a directive line, an
    indentation of spaces and tabs, the marker and the rest of the line,
    what the formatter receives is the line with two slashes before the
    marker, a comment; and the directive line also comes back where the
    formatter has put spaces after the two slashes. *)
Theorem directive_line_restored_where_formatter_keeps_comment
  (clang_format : bytes -> bytes) (content line : bytes) (k i : nat) :
  ~ In NL line ->
  (nth_error (split_lines content) k = Some line ->
   nth_error (split_lines (sed p1_script content)) k
     = Some (sed p1_script line)) /\
  (nth_error (split_lines (clang_format (sed p1_script content))) i
     = Some (sed p1_script line) ->
   nth_error (split_lines (pipeline clang_format content)) i = Some line) /\
  (forall (indent rest : bytes) (j : nat),
     Forall blank indent ->
     line = indent ++ MARKER ++ rest ->
     sed p1_script line = indent ++ blit "//" ++ MARKER ++ sed p1_script rest /\
     (nth_error (split_lines (clang_format (sed p1_script content))) i
        = Some (indent ++ blit "//" ++ repeat x20 j ++ MARKER
                  ++ sed p1_script rest) ->
      nth_error (split_lines (pipeline clang_format content)) i
        = Some line)).
Proof.
intros Hline. rewrite (first_sed_line line Hline). split; [|split].
- intros H. now rewrite first_sed_lines, nth_error_map, H.
- intros H. unfold pipeline.
  rewrite second_sed_lines, nth_error_map, H. cbn [option_map]. f_equal.
  exact (unmask_mask MARKER x23 (blit "pragma omp") eq_refl
           ltac:(discriminate) ltac:(discriminate) marker_no_slash line).
- intros indent rest j Hb E.
  assert (Hrest : ~ In NL rest).
  { intros Hin. apply Hline. rewrite E, !in_app_iff. auto. }
  rewrite (first_sed_line rest Hrest). split.
  + rewrite E. exact (mask_directive_line indent rest Hb).
  + intros H. unfold pipeline.
    rewrite second_sed_lines, nth_error_map, H. cbn [option_map].
    rewrite E. f_equal.
    exact (unmask_directive_line indent rest j Hb).
Qed.

(* ===================================================================== *)
(** ** Further runs on the example project *)
(* ===================================================================== *)

Lemma files_of_one_path_per_line_witness :
  Forall (fun name => ~ In LF name) loose_names /\
  ~ In LF loose_last /\
  files (one_per_line loose_names) = [lit "a.c"; []; lit "b.c"] /\
  files (one_per_line loose_names ++ loose_last)
    = [lit "a.c"; []; lit "b.c"; lit "c.c"].
Proof.
assert (H1 : Forall (fun name => ~ In LF name) loose_names).
{ repeat constructor; vm_compute; intros H;
    repeat (destruct H as [H|H]; [discriminate|]); exact H. }
assert (H2 : ~ In LF loose_last).
{ vm_compute; intros H;
    repeat (destruct H as [H|H]; [discriminate|]); exact H. }
split; [exact H1|]. split; [exact H2|].
destruct (files_of_one_path_per_line loose_names loose_last H1 H2) as [E1 E2].
split.
- rewrite E1. vm_compute. reflexivity.
- rewrite E2 by discriminate. vm_compute. reflexivity.
Defined.

Lemma listed_paths_are_stripped_witness :
  In (lit "a.c") (files three_paths) /\ strip (lit "a.c") = lit "a.c".
Proof.
assert (H : In (lit "a.c") (files three_paths))
  by (vm_compute; right; left; reflexivity).
split; [exact H|].
exact (proj1 (listed_paths_are_stripped three_paths (lit "a.c") H)).
Defined.

(** A file that is not UTF-8 in a UTF-8 locale: the run stops at it. *)
Lemma first_failure_ends_run_witness :
  files (one_per_line [lit "cafe.c"]) = [] ++ lit "cafe.c" :: [] /\
  conformance tidy utf8_decode gnu_sed (quiet latin1_project) 0 [] = Some [] /\
  conforms_at tidy utf8_decode gnu_sed (quiet latin1_project) 0 (lit "cafe.c")
    = None /\
  exists e,
    fst (main tidy utf8_decode gnu_sed (one_per_line [lit "cafe.c"])
           (quiet latin1_project)) = Raised e /\
    stops_run e /\
    exit_code (fst (main tidy utf8_decode gnu_sed (one_per_line [lit "cafe.c"])
                      (quiet latin1_project))) = 1%Z.
Proof.
assert (H1 : files (one_per_line [lit "cafe.c"]) = [] ++ lit "cafe.c" :: [])
  by (vm_compute; reflexivity).
assert (H2 : conformance tidy utf8_decode gnu_sed (quiet latin1_project)
               (clock (quiet latin1_project)) [] = Some [])
  by reflexivity.
assert (H3 : conforms_at tidy utf8_decode gnu_sed (quiet latin1_project)
               (2 * List.length (@nil str) + clock (quiet latin1_project))
               (lit "cafe.c") = None) by (vm_compute; reflexivity).
split; [exact H1|]. split; [exact H2|]. split; [exact H3|].
destruct (first_failure_ends_run tidy utf8_decode gnu_sed
            (one_per_line [lit "cafe.c"]) (quiet latin1_project)
            [] [] (lit "cafe.c") [] H1 H2 H3) as (e & E1 & E2 & E3 & _).
exists e. now repeat split.
Defined.

Lemma exit_code_is_count_mod_256_witness :
  conformance tidy utf8_decode gnu_sed (quiet project) 0 (files many_paths)
    = Some (repeat false 256) /\
  exit_code (fst (main tidy utf8_decode gnu_sed many_paths (quiet project)))
    = (256 mod 256)%Z.
Proof.
assert (H : conformance tidy utf8_decode gnu_sed (quiet project)
              (clock (quiet project)) (files many_paths)
            = Some (repeat false 256)) by (vm_compute; reflexivity).
split; [exact H|].
exact (proj1 (exit_code_is_count_mod_256 tidy utf8_decode gnu_sed many_paths
                (quiet project) (repeat false 256) H)).
Defined.

Lemma exit_zero_means_all_conform_witness :
  List.length (files (one_per_line [lit "a.c"])) < 256 /\
  exit_code (fst (main tidy utf8_decode gnu_sed (one_per_line [lit "a.c"])
                    (quiet project))) = 0%Z /\
  exists vs,
    conformance tidy utf8_decode gnu_sed (quiet project) 0
      (files (one_per_line [lit "a.c"])) = Some vs /\
    Forall (fun v => v = true) vs.
Proof.
assert (H1 : List.length (files (one_per_line [lit "a.c"])) < 256)
  by (vm_compute; lia).
assert (H2 : exit_code (fst (main tidy utf8_decode gnu_sed (one_per_line [lit "a.c"])
                               (quiet project))) = 0%Z)
  by (vm_compute; reflexivity).
split; [exact H1|]. split; [exact H2|].
exact (exit_zero_means_all_conform tidy utf8_decode gnu_sed
         (one_per_line [lit "a.c"]) (quiet project) H1 H2).
Defined.

(** The CR LF file again, with a formatter that keeps its line ends. *)
Lemma carriage_return_never_conforms_witness :
  In x0d (pipe_output keep gnu_sed (quiet project) 1 (lit "crlf.c")) /\
  conforms_at keep utf8_decode gnu_sed (quiet project) 0 (lit "crlf.c") <> Some true.
Proof.
assert (H : In x0d (pipe_output keep gnu_sed (quiet project) 1
                      (lit "crlf.c")))
  by (vm_compute; do 6 right; left; reflexivity).
split; [exact H|].
exact (carriage_return_in_pipe_output_never_conforms keep utf8_decode gnu_sed
         (quiet project) 0 (lit "crlf.c") H).
Defined.

(** A Latin-1 file in a Latin-1 locale: it is read, and the run ends at
    the decoding of the pipe output. *)
Lemma undecodable_pipe_output_aborts_witness :
  lookup (disk_at (quiet latin1_project) 0) (lit "cafe.c")
    = Some (Regular latin1_file) /\
  latin1_decode latin1_file = Some (lit "caf" ++ [233%N; LF]) /\
  formatted_at keep gnu_sed (quiet latin1_project) 1 (lit "cafe.c")
    = None /\
  fst (loop_body keep latin1_decode gnu_sed (lit "cafe.c") 0%Z (quiet latin1_project))
    = Raised UnicodeDecodeError.
Proof.
assert (H1 : lookup (disk_at (quiet latin1_project)
                       (clock (quiet latin1_project))) (lit "cafe.c")
             = Some (Regular latin1_file)) by (vm_compute; reflexivity).
assert (H2 : latin1_decode latin1_file = Some (lit "caf" ++ [233%N; LF]))
  by (vm_compute; reflexivity).
assert (H3 : formatted_at keep gnu_sed (quiet latin1_project)
               (S (clock (quiet latin1_project))) (lit "cafe.c")
             = None) by (vm_compute; reflexivity).
split; [exact H1|]. split; [exact H2|]. split; [exact H3|].
destruct (undecodable_pipe_output_aborts keep latin1_decode gnu_sed (lit "cafe.c")
            0%Z (quiet latin1_project) latin1_file
            (lit "caf" ++ [233%N; LF]) H1 H2 H3) as (E & _ & _).
rewrite E. reflexivity.
Defined.

(** A well formatted file that is removed between the two reads is
    reported as needing formatting. *)
Lemma file_gone_before_pipe_witness :
  is_option (lit "a.c") = false /\
  lookup (disk_at vanishing 0) (lit "a.c") = Some (Regular conforming) /\
  access_error (lookup (disk_at vanishing 1) (lit "a.c"))
    = Some FileNotFoundError /\
  utf8_decode (sed p3_script (tidy [])) = Some [] /\
  fst (loop_body tidy utf8_decode gnu_sed (lit "a.c") 0%Z vanishing) = Returned 1%Z.
Proof.
assert (H1 : lookup (disk_at vanishing (clock vanishing)) (lit "a.c")
             = Some (Regular conforming)) by (vm_compute; reflexivity).
assert (H2 : utf8_decode conforming = Some (lit "int x;" ++ [LF]))
  by (vm_compute; reflexivity).
assert (H3 : access_error (lookup (disk_at vanishing (S (clock vanishing)))
                             (lit "a.c")) = Some FileNotFoundError)
  by (vm_compute; reflexivity).
assert (H4 : utf8_decode (sed p3_script (tidy [])) = Some [])
  by (vm_compute; reflexivity).
split; [reflexivity|].
split; [exact H1|]. split; [exact H3|]. split; [exact H4|].
rewrite (file_gone_before_pipe_is_compared_with_empty tidy utf8_decode gnu_sed
           (lit "a.c") 0%Z vanishing conforming (lit "int x;" ++ [LF]) []
           FileNotFoundError eq_refl H1 H2 H3 H4).
reflexivity.
Defined.

Lemma exit_status_invariant_under_reordering_witness :
  still (quiet project) /\
  Permutation (files three_paths) (files three_paths_reordered) /\
  conformance tidy utf8_decode gnu_sed (quiet project) 0 (files three_paths)
    = Some [false; true; false] /\
  fst (main tidy utf8_decode gnu_sed three_paths_reordered (quiet project))
    = Raised (SystemExit 2).
Proof.
assert (H1 : still (quiet project)) by (intros t; reflexivity).
assert (H2 : Permutation (files three_paths) (files three_paths_reordered)).
{ assert (E1 : files three_paths = lit "b.c" :: [lit "a.c"; lit "c.c"])
    by (vm_compute; reflexivity).
  assert (E2 : files three_paths_reordered
               = [lit "a.c"; lit "c.c"] ++ [lit "b.c"])
    by (vm_compute; reflexivity).
  rewrite E1, E2. apply Permutation_cons_append. }
assert (H3 : conformance tidy utf8_decode gnu_sed (quiet project)
               (clock (quiet project)) (files three_paths)
             = Some [false; true; false]) by (vm_compute; reflexivity).
split; [exact H1|]. split; [exact H2|]. split; [exact H3|].
destruct (exit_status_invariant_under_reordering tidy utf8_decode gnu_sed
            three_paths three_paths_reordered (quiet project)
            [false; true; false] H1 H2 H3) as [E1 E2].
rewrite E1, E2. reflexivity.
Defined.

Lemma pipeline_is_formatter_without_marker_witness :
  occursb MARKER unformatted = false /\
  occursb MARKER (tidy unformatted) = false /\
  pipeline tidy unformatted = blit "int x;" ++ [NL].
Proof.
assert (H1 : occursb MARKER unformatted = false) by reflexivity.
assert (H2 : occursb MARKER (tidy unformatted) = false) by reflexivity.
split; [exact H1|]. split; [exact H2|].
rewrite (pipeline_is_formatter_without_marker tidy unformatted H1 H2).
reflexivity.
Defined.

Lemma masked_marker_follows_slashes_witness :
  In (blit "//#pragma omp parallel   for")
     (split_lines (sed p1_script directive)) /\
  exists pre', blit "//" = pre' ++ blit "//".
Proof.
assert (H : In (blit "//#pragma omp parallel   for")
              (split_lines (sed p1_script directive)))
  by (vm_compute; left; reflexivity).
split; [exact H|].
exact (masked_marker_follows_slashes directive
         (blit "//#pragma omp parallel   for")
         (blit "//") (blit " parallel   for") H eq_refl).
Defined.

(** The path of a file that needs formatting, on 256 lines. *)
Lemma repeated_path_counts_each_time_witness :
  still (quiet project) /\
  files many_paths = repeat (lit "b.c") 256 /\
  conforms_at tidy utf8_decode gnu_sed (quiet project) 0 (lit "b.c") = Some false /\
  fst (main tidy utf8_decode gnu_sed many_paths (quiet project))
    = Raised (SystemExit 256).
Proof.
assert (H1 : still (quiet project)) by (intros t; reflexivity).
assert (H2 : files many_paths = repeat (lit "b.c") 256)
  by (vm_compute; reflexivity).
assert (H3 : conforms_at tidy utf8_decode gnu_sed (quiet project) 0 (lit "b.c")
             = Some false) by (vm_compute; reflexivity).
split; [exact H1|]. split; [exact H2|]. split; [exact H3|].
exact (proj1 (repeated_path_counts_each_time tidy utf8_decode gnu_sed many_paths
                (quiet project) (lit "b.c") 256 H1 H2 H3)).
Defined.

(* ===================================================================== *)
(** ** Runs on files with other encodings, line ends and names *)
(* ===================================================================== *)

(** C2 as stated fails on readable files in two ways.  A Latin-1 file in
    a Latin-1 locale is read, and gets no verdict: the iteration raises
    at the decoding of the pipe output, after the prefix.  A file with
    CR LF line ends gets [needs formatting] and adds 1 although the pipe
    output is the content of the file, byte for byte. *)
Lemma readable_file_not_judged_by_its_content :
  (lookup (disk_at (quiet latin1_project) 0) (lit "cafe.c")
     = Some (Regular latin1_file) /\
   latin1_decode latin1_file = Some (lit "caf" ++ [233%N; LF]) /\
   fst (loop_body keep latin1_decode gnu_sed (lit "cafe.c") 0%Z
          (quiet latin1_project)) = Raised UnicodeDecodeError /\
   stdout (snd (loop_body keep latin1_decode gnu_sed (lit "cafe.c") 0%Z
                  (quiet latin1_project))) = lit "cafe.c: ") /\
  (lookup (disk_at (quiet project) 0) (lit "crlf.c") = Some (Regular crlf) /\
   pipe_output keep gnu_sed (quiet project) 1 (lit "crlf.c") = crlf /\
   fst (loop_body keep utf8_decode gnu_sed (lit "crlf.c") 0%Z (quiet project))
     = Returned 1%Z /\
   stdout (snd (loop_body keep utf8_decode gnu_sed (lit "crlf.c") 0%Z
                  (quiet project)))
     = lit "crlf.c: needs formatting" ++ [LF; LF]).
Proof. repeat split; vm_compute; reflexivity. Qed.

(** A directive with odd spacing in a file whose code the formatter
    changes: the formatter would squeeze the directive if it saw it as
    code, and the directive line comes out of the pipeline as it went
    in. *)
Lemma directive_line_restored_witness :
  ~ In NL (blit "#pragma omp parallel   for") /\
  nth_error (split_lines directive_and_code) 0
    = Some (blit "#pragma omp parallel   for") /\
  nth_error (split_lines (tidy directive_and_code)) 0
    = Some (blit "#pragma omp parallel for") /\
  tidy (sed p1_script directive_and_code) <> sed p1_script directive_and_code /\
  nth_error (split_lines (tidy (sed p1_script directive_and_code))) 0
    = Some (blit "//#pragma omp parallel   for") /\
  nth_error (split_lines (pipeline tidy directive_and_code)) 0
    = Some (blit "#pragma omp parallel   for").
Proof.
assert (H1 : ~ In NL (blit "#pragma omp parallel   for")).
{ vm_compute. intros H.
  repeat (destruct H as [H|H]; [discriminate|]). exact H. }
assert (H2 : nth_error (split_lines (tidy (sed p1_script directive_and_code))) 0
             = Some ([] ++ blit "//" ++ repeat x20 0 ++ MARKER
                        ++ sed p1_script (blit " parallel   for")))
  by (vm_compute; reflexivity).
split; [exact H1|].
split; [vm_compute; reflexivity|]. split; [vm_compute; reflexivity|].
split; [vm_compute; discriminate|]. split; [vm_compute; reflexivity|].
destruct (directive_line_restored_where_formatter_keeps_comment tidy
            directive_and_code (blit "#pragma omp parallel   for") 0 0 H1)
  as (_ & _ & R).
destruct (R [] (blit " parallel   for") 0 (Forall_nil _) eq_refl) as [_ R'].
exact (R' H2).
Defined.

(** C6 as stated fails on a list with a file that cannot be opened: for
    three paths the run prints three lines, the report of the first path
    and the prefix of the second, and nothing for the third. *)
Lemma aborted_run_prints_fewer_lines :
  files secret_paths = [lit "a.c"; lit "secret.c"; lit "b.c"] /\
  readlines (stdout (snd (main tidy utf8_decode gnu_sed secret_paths
                            (quiet project))))
    = [lit "a.c: OK" ++ [LF]; [LF]; lit "secret.c: "] /\
  List.length (readlines (stdout (snd (main tidy utf8_decode gnu_sed
                                         secret_paths (quiet project)))))
    <> 2 * List.length (files secret_paths).
Proof.
split; [vm_compute; reflexivity|]. split; [vm_compute; reflexivity|].
vm_compute. discriminate.
Qed.

(** Two lines with white space around the paths and a last line without
    newline: six lines, in the order of the input. *)
Lemma two_lines_per_path_witness :
  Forall (fun name => ~ In LF name) [lit "b.c"; lit "  a.c "] /\
  ~ In LF (lit "c.c") /\
  conformance tidy utf8_decode gnu_sed (quiet project) 0
    [lit "b.c"; lit "a.c"; lit "c.c"] = Some [false; true; false] /\
  readlines
    (stdout (snd (main tidy utf8_decode gnu_sed
                    (one_per_line [lit "b.c"; lit "  a.c "] ++ lit "c.c")
                    (quiet project))))
    = [lit "b.c: needs formatting" ++ [LF]; [LF];
       lit "a.c: OK" ++ [LF]; [LF];
       lit "c.c: needs formatting" ++ [LF]; [LF]].
Proof.
assert (H1 : Forall (fun name => ~ In LF name) [lit "b.c"; lit "  a.c "]).
{ repeat constructor; vm_compute; intros H;
    repeat (destruct H as [H|H]; [discriminate|]); exact H. }
assert (H2 : ~ In LF (lit "c.c")).
{ vm_compute; intros H;
    repeat (destruct H as [H|H]; [discriminate|]); exact H. }
assert (H3 : conformance tidy utf8_decode gnu_sed (quiet project)
               (clock (quiet project))
               (map strip [lit "b.c"; lit "  a.c "]
                  ++ match lit "c.c" with [] => [] | _ => [strip (lit "c.c")] end)
             = Some [false; true; false]) by (vm_compute; reflexivity).
split; [exact H1|]. split; [exact H2|]. split; [vm_compute; reflexivity|].
destruct (two_lines_per_path_in_input_order tidy utf8_decode gnu_sed
            [lit "b.c"; lit "  a.c "] (lit "c.c") (quiet project)
            [false; true; false] H1 H2 H3) as (E1 & E2 & _).
rewrite E1. cbn [stdout quiet trace flat_map app]. rewrite E2.
vm_compute. reflexivity.
Defined.

(** C8.  A file named [-fw.sed] is on the list and in the directory.
    The interpreter opens and reads it; sed, started with that name as
    its last argument, takes it for the option [-f] with the script file
    [w.sed] and empties [victim.c]: an event of the run that does not
    leave files alone. *)
Theorem dashed_path_makes_sed_empty_a_file :
  files dashed_paths = [lit "-fw.sed"] /\
  lookup (disk_at (quiet dashed) 0) (lit "-fw.sed")
    = Some (Regular conforming) /\
  trace (snd (main tidy utf8_decode gnu_sed dashed_paths (quiet dashed)))
    = [EvPrint (lit "-fw.sed: ");
       EvOpen (lit "-fw.sed") "r";
       EvPopen [lit "sed"; lit p1_script; lit "-fw.sed"];
       EvChildWrite (lit "victim.c");
       EvPopen [lit "clang-format-mp-7.0"; lit "-style=file"];
       EvPopen [lit "sed"; lit p3_script];
       EvPrint (lit "needs formatting" ++ [LF; LF])] /\
  ~ Forall leaves_files
      (trace (snd (main tidy utf8_decode gnu_sed dashed_paths (quiet dashed)))).
Proof.
assert (E : trace (snd (main tidy utf8_decode gnu_sed dashed_paths
                          (quiet dashed)))
    = [EvPrint (lit "-fw.sed: ");
       EvOpen (lit "-fw.sed") "r";
       EvPopen [lit "sed"; lit p1_script; lit "-fw.sed"];
       EvChildWrite (lit "victim.c");
       EvPopen [lit "clang-format-mp-7.0"; lit "-style=file"];
       EvPopen [lit "sed"; lit p3_script];
       EvPrint (lit "needs formatting" ++ [LF; LF])])
  by (vm_compute; reflexivity).
split; [vm_compute; reflexivity|]. split; [vm_compute; reflexivity|].
split; [exact E|]. rewrite E. intros H.
do 3 (inversion H as [|? ? _ H']; subst; clear H; rename H' into H).
inversion H as [|? ? Hw _]; subst. exact Hw.
Qed.

(** C10 as stated fails for a file named [-n]: the interpreter reads the
    file, and sed, started with that name as its last argument, takes it
    for an option and reads no file.  The file is well formatted at both
    instants, and the verdict is [needs formatting]. *)
Lemma dashed_path_is_not_read_by_sed :
  is_option (lit "-n") = true /\
  lookup (disk_at (quiet dashed) 0) (lit "-n") = Some (Regular conforming) /\
  lookup (disk_at (quiet dashed) 1) (lit "-n") = Some (Regular conforming) /\
  pipeline tidy conforming = conforming /\
  fst (loop_body tidy utf8_decode gnu_sed (lit "-n") 0%Z (quiet dashed))
    = Returned 1%Z /\
  trace (snd (loop_body tidy utf8_decode gnu_sed (lit "-n") 0%Z (quiet dashed)))
    = [EvPrint (lit "-n: ");
       EvOpen (lit "-n") "r";
       EvPopen [lit "sed"; lit p1_script; lit "-n"];
       EvPopen [lit "clang-format-mp-7.0"; lit "-style=file"];
       EvPopen [lit "sed"; lit p3_script];
       EvPrint (lit "needs formatting" ++ [LF; LF])].
Proof. repeat split; vm_compute; reflexivity. Qed.
